(** * waiting.py: a terminal busy indicator

    A shallow embedding of [src/waiting.py]: the class [Animation] (a shared
    [itertools.cycle] of frames, a [finished] flag per instance, a background
    thread running [_animate]) and the decorator [wait_for_it].

    The interpreter state is threaded explicitly.  The calling thread runs
    whole methods as state transformers in a small state-and-exception monad;
    a background thread advances one statement of [_animate] at a time, so
    that every interleaving of the loop with the caller is a list of steps. *)

From Stdlib Require Import String Ascii QArith.
From stdpp Require Import base list.

Local Open Scope string_scope.
Local Open Scope list_scope.

(** Concatenation of strings, written apart from that of lists. *)
Infix "+:+" := String.append (at level 60, right associativity).

(** ** Python values and exceptions *)

(** Index of an object in the heap of [Animation] instances. *)
Abbreviation ref := nat (only parsing).

(** Index of a thread in the table of started threads. *)
Abbreviation tid := nat (only parsing).

Inductive value :=
  | VNone
  | VBool (b : bool)
  | VInt (z : Z)
  | VStr (s : string)
  | VRef (r : ref).

(** Python's truth test on the values above. *)
Definition truthy (v : value) : bool :=
  match v with
  | VNone => false
  | VBool b => b
  | VInt z => negb (Z.eqb z 0)
  | VStr s => negb (Nat.eqb (String.length s) 0)
  | VRef _ => true
  end.

(** An exception: its class name and its argument. *)
Record exn := Exn { exc_class : string; exc_arg : string }.

Inductive outcome (A : Type) :=
  | Return (v : A)
  | Raise (e : exn).
Arguments Return {A} v.
Arguments Raise {A} e.

(** ** [itertools.cycle] *)

(** A cycle over a list: the saved elements and the number of elements
    handed out so far.  The iterator object is mutable; [pos] is its state. *)
Record cycle := Cycle { saved : list string; pos : nat }.

Definition itertools_cycle (l : list string) : cycle :=
  {| saved := l; pos := 0 |}.

(** [next(c)]: the element at the cursor and the advanced iterator, or
    [None] (StopIteration) for a cycle over nothing. *)
Definition next (c : cycle) : option (string * cycle) :=
  match saved c !! (pos c mod length (saved c)) with
  | Some x => Some (x, {| saved := saved c; pos := S (pos c) |})
  | None => None
  end.

(** ** Standard output *)

(** A buffered text stream: what was written and not yet flushed, and what
    has reached the terminal. *)
Record stream := Stream { buffer : string; delivered : string }.

Definition write (s : string) (f : stream) : stream :=
  {| buffer := buffer f +:+ s; delivered := delivered f |}.

Definition flush (f : stream) : stream :=
  {| buffer := EmptyString; delivered := delivered f +:+ buffer f |}.

(** The carriage return, ['\r']. *)
Definition CR : string := String (ascii_of_nat 13) EmptyString.

(** The line feed, ['\n']. *)
Definition LF : string := String (ascii_of_nat 10) EmptyString.

Fixpoint join (sep : string) (l : list string) : string :=
  match l with
  | [] => EmptyString
  | [x] => x
  | x :: rest => x +:+ sep +:+ join sep rest
  end.

(** [print] with the objects to show, [sep], [end] and [flush], on a stream:
    the objects joined by [sep], then [end], then the flush if asked. *)
Definition print (objects : list string) (sep end_ : string) (fl : bool)
    (f : stream) : stream :=
  let f' := write end_ (write (join sep objects) f) in
  if fl then flush f' else f'.

(** ** Objects, threads and the interpreter state *)

(** The instance attributes of an [Animation] object: [finished] is absent
    until [__init__] has assigned it. *)
Record instance := Instance { finished : option bool }.

(** Where a thread running [Animation._animate] stands. *)
Inductive pc :=
  | AtTest                (* about to evaluate [while not self.finished] *)
  | AtPrint               (* in the loop body, about to print the next symbol *)
  | AtSleep               (* about to [time.sleep(0.075)] *)
  | Returned              (* the loop is left and the thread has ended *)
  | Crashed (e : exn).    (* an exception ended the thread *)

(** A started thread: the [self] its target [_animate] is bound to. *)
Record thread := Thread { self_of : ref; at_pc : pc }.

Record World := MkWorld {
  symbol : cycle;                (* the state of the class attribute [symbol] *)
  objs : list instance;          (* the [Animation] instances, by reference *)
  threads : list thread;         (* the threads started so far *)
  stdout : stream
}.

Definition set_symbol (c : cycle) (w : World) : World :=
  {| symbol := c; objs := objs w; threads := threads w; stdout := stdout w |}.

Definition set_objs (o : list instance) (w : World) : World :=
  {| symbol := symbol w; objs := o; threads := threads w; stdout := stdout w |}.

Definition set_threads (ts : list thread) (w : World) : World :=
  {| symbol := symbol w; objs := objs w; threads := ts; stdout := stdout w |}.

Definition set_stdout (f : stream) (w : World) : World :=
  {| symbol := symbol w; objs := objs w; threads := threads w; stdout := f |}.

(** [self.finished]: [None] when the attribute (or the object) is missing,
    which Python reports as an AttributeError. *)
Definition get_finished (w : World) (self : ref) : option bool :=
  objs w !! self ≫= finished.

(** [self.finished = b]. *)
Definition setattr_finished (self : ref) (b : bool) (w : World) : World :=
  set_objs (<[self := {| finished := Some b |}]> (objs w)) w.

(** [self.symbol]: no instance has an attribute [symbol] of its own, so the
    lookup on any [self] ends at the one iterator of the class. *)
Definition self_symbol (w : World) (self : ref) : cycle := symbol w.

(** ** The calling thread: state and exceptions *)

Definition M (A : Type) : Type := World -> outcome A * World.

Definition ret {A} (v : A) : M A := fun w => (Return v, w).

Definition raise {A} (e : exn) : M A := fun w => (Raise e, w).

Definition bind {A B} (m : M A) (k : A -> M B) : M B :=
  fun w =>
    match m w with
    | (Return v, w') => k v w'
    | (Raise e, w') => (Raise e, w')
    end.

Notation "'do' x <- m ; k" := (bind m (fun x => k))
  (at level 10, x name, m at level 100, k at level 200).
Notation "'do_' m ; k" := (bind m (fun _ => k))
  (at level 10, m at level 100, k at level 200).

Definition modify (f : World -> World) : M unit :=
  fun w => (Return tt, f w).

(** ** The class [Animation] *)

Module Animation.

(** The list the class body hands to [itertools.cycle]. *)
Definition frames : list string := [
    " ...      ";
    "  ...     ";
    "   ...    ";
    "    ...   ";
    "     ...  ";
    "      ... ";
    "       ...";
    " .      ..";
    " ..      ."
  ].

(** The string [stop] prints over the last frame. *)
Definition clear : string := "          ".

(** The argument of [time.sleep], in seconds. *)
Definition interval : Q := 0.075.

Definition __init__ (self : ref) : M value :=
  do_ modify (setattr_finished self false);
  ret VNone.

(** The call [Animation()]: a new object, initialised by [__init__]. *)
Definition new : M ref :=
  fun w =>
    let self := length (objs w) in
    (do_ modify (set_objs (objs w ++ [ {| finished := None |} ]));
     do_ __init__ self;
     ret self) w.

(** [threading.Thread(target=self._animate).start()]: the new thread is
    about to run the first statement of [_animate]. *)
Definition start (self : ref) : M value :=
  do_ modify (fun w =>
        set_threads (threads w ++ [ {| self_of := self; at_pc := AtTest |} ]) w);
  ret VNone.

Definition stop (self : ref) : M value :=
  do_ modify (setattr_finished self true);
  do_ modify (fun w => set_stdout (print [clear] EmptyString CR true (stdout w)) w);
  ret VNone.

Definition __enter__ (self : ref) : M value :=
  do_ start self;
  ret (VRef self).

(** The arguments [exc_type], [exc_value] and [traceback] are all [None],
    or describe the one exception leaving the block; neither is read.
    The method falls off its end, so the call returns [None]. *)
Definition __exit__ (self : ref) (exc : option exn) : M value :=
  do_ stop self;
  ret VNone.

End Animation.

(** The state once the module is loaded. *)
Definition initial : World :=
  {| symbol := itertools_cycle Animation.frames; objs := []; threads := [];
     stdout := {| buffer := EmptyString; delivered := EmptyString |} |}.

(** ** The [with] statement and [wait_for_it] *)

(** How a block of statements ends when it does not raise: it runs to its
    end, or it executes a [return]. *)
Inductive completion :=
  | Normal
  | Returning (v : value).

(** [with mgr_expr as x: body], for a manager whose class has the methods
    [enter] and [exit_].  The exit method is called on every way out of the
    block; an exception leaves the statement unless the exit method answers
    something true. *)
Definition with_stmt (mgr_expr : M ref)
    (enter : ref -> M value) (exit_ : ref -> option exn -> M value)
    (body : value -> M completion) : M completion :=
  do mgr <- mgr_expr;
  do x <- enter mgr;
  fun w =>
    match body x w with
    | (Return c, w') =>
        (do_ exit_ mgr None; ret c) w'
    | (Raise e, w') =>
        (do suppress <- exit_ mgr (Some e);
         if truthy suppress then ret Normal else raise e) w'
    end.

(** The value of a call whose function body is [block]: the returned value,
    or [None] when the body runs to its end. *)
Definition call (block : M completion) : M value :=
  do c <- block;
  match c with
  | Normal => ret VNone
  | Returning v => ret v
  end.

(** A callable: positional arguments and keyword arguments to a result. *)
Definition callable := list value -> list (string * value) -> M value.

(** [functools.wraps] copies the name and the documentation of [func] onto
    [wrapped]; it does not change what a call does. *)
Definition wait_for_it (func : callable) : callable :=
  fun args kwargs =>
    call (with_stmt Animation.new Animation.__enter__ Animation.__exit__
            (fun _ => do v <- func args kwargs; ret (Returning v))).

(** A callable to try the decorator on: [lambda a, b, key: a + b + key]
    on integers. *)
Definition sample_sum : callable :=
  fun args kwargs =>
    match args, kwargs with
    | [VInt a; VInt b], [(k, VInt c)] =>
        if String.eqb k "key" then ret (VInt (a + b + c))
        else raise {| exc_class := "TypeError"; exc_arg := k |}
    | _, _ => raise {| exc_class := "TypeError"; exc_arg := "sample_sum" |}
    end.

(** ** The background thread *)

(** What one statement of [_animate] lets an observer see. *)
Inductive event :=
  | Tested (flag : bool)        (* the loop test read [self.finished] *)
  | Printed (frame : string)    (* a frame went to standard output *)
  | Slept (seconds : Q)         (* the thread slept *)
  | Failed (e : exn).           (* the statement raised *)

Definition set_pc (t : tid) (p : pc) (w : World) : World :=
  set_threads (alter (fun th => {| self_of := self_of th; at_pc := p |}) t
                 (threads w)) w.

Definition AttributeError : exn :=
  {| exc_class := "AttributeError"; exc_arg := "finished" |}.

Definition StopIteration : exn :=
  {| exc_class := "StopIteration"; exc_arg := EmptyString |}.

(** One statement of [_animate] in thread [t]; [None] when there is no such
    thread or it has ended. *)
Definition _animate (t : tid) (w : World) : option (event * World) :=
  match threads w !! t with
  | None => None
  | Some th =>
      match at_pc th with
      | AtTest =>
          match get_finished w (self_of th) with
          | Some true => Some (Tested true, set_pc t Returned w)
          | Some false => Some (Tested false, set_pc t AtPrint w)
          | None => Some (Failed AttributeError, set_pc t (Crashed AttributeError) w)
          end
      | AtPrint =>
          match next (self_symbol w (self_of th)) with
          | Some (frame, c) =>
              Some (Printed frame,
                    set_pc t AtSleep
                      (set_stdout (print [frame] EmptyString CR true (stdout w))
                         (set_symbol c w)))
          | None => Some (Failed StopIteration, set_pc t (Crashed StopIteration) w)
          end
      | AtSleep => Some (Slept Animation.interval, set_pc t AtTest w)
      | Returned => None
      | Crashed _ => None
      end
  end.

(** ** Interleavings *)

(** What can happen next: the calling thread runs a method of [Animation]
    (or one of the two statements of [stop]), or a background thread runs a
    statement of its loop. *)
Inductive op :=
  | OpNew
  | OpStart (self : ref)
  | OpStop (self : ref)
  | OpStopFlag (self : ref)     (* [self.finished = True] alone *)
  | OpStopClear                 (* the [print] of [stop] alone *)
  | OpEnter (self : ref)
  | OpExit (self : ref) (exc : option exn)
  | OpStep (t : tid).

Definition trace := list (tid * event).

Definition exec_op (o : op) (w : World) : trace * World :=
  match o with
  | OpNew => ([], snd (Animation.new w))
  | OpStart self => ([], snd (Animation.start self w))
  | OpStop self => ([], snd (Animation.stop self w))
  | OpStopFlag self => ([], setattr_finished self true w)
  | OpStopClear =>
      ([], set_stdout (print [Animation.clear] EmptyString CR true (stdout w)) w)
  | OpEnter self => ([], snd (Animation.__enter__ self w))
  | OpExit self exc => ([], snd (Animation.__exit__ self exc w))
  | OpStep t =>
      match _animate t w with
      | Some (ev, w') => ([(t, ev)], w')
      | None => ([], w)
      end
  end.

Fixpoint exec (ops : list op) (w : World) : trace * World :=
  match ops with
  | [] => ([], w)
  | o :: rest =>
      let '(tr1, w1) := exec_op o w in
      let '(tr2, w2) := exec rest w1 in
      (tr1 ++ tr2, w2)
  end.

(** ** Reading a trace *)

(** The frames thread [t] printed in a trace, and the sleeps it took. *)
Definition printed_by (t : tid) (tr : trace) : list string :=
  omap (fun '(t', ev) =>
          match ev with
          | Printed f => if decide (t' = t) then Some f else None
          | _ => None
          end) tr.

Definition slept_by (t : tid) (tr : trace) : list Q :=
  omap (fun '(t', ev) =>
          match ev with
          | Slept s => if decide (t' = t) then Some s else None
          | _ => None
          end) tr.

(** The number of statements the schedule gives thread [t]. *)
Definition is_step (t : tid) (o : op) : bool :=
  match o with
  | OpStep t' => bool_decide (t' = t)
  | _ => false
  end.

Definition steps_of (t : tid) (ops : list op) : nat :=
  length (List.filter (is_step t) ops).

Definition pc_of (w : World) (t : tid) : option pc :=
  at_pc <$> threads w !! t.

Definition ended (p : pc) : bool :=
  match p with
  | Returned | Crashed _ => true
  | _ => false
  end.

(** The frame the shared cycle hands out at cursor [k]. *)
Definition frame_at (k : nat) : string :=
  default EmptyString (Animation.frames !! (k mod length Animation.frames)).

(** ** What a loop has left to do *)

(** How many more frames, sleeps and statements a loop standing at [p] can
    still get to once its flag is set. *)
Definition prints_left (p : pc) : nat :=
  match p with
  | AtPrint => 1
  | _ => 0
  end.

Definition sleeps_left (p : pc) : nat :=
  match p with
  | AtPrint | AtSleep => 1
  | _ => 0
  end.

Definition steps_left (p : pc) : nat :=
  match p with
  | AtPrint => 3
  | AtSleep => 2
  | AtTest => 1
  | Returned | Crashed _ => 0
  end.

(** A loop standing here reaches its end without raising once its flag is
    set: it has no symbol to fetch on the way. *)
Definition calm (p : pc) : bool :=
  match p with
  | AtTest | AtSleep | Returned => true
  | AtPrint | Crashed _ => false
  end.

(** All the frames printed in a trace, by whichever thread. *)
Definition printed (tr : trace) : list string :=
  omap (fun '(_, ev) =>
          match ev with
          | Printed f => Some f
          | _ => None
          end) tr.

(** ** Uninterrupted turns of the loop *)

(** The state after one more frame is fetched and printed, and what [n]
    uninterrupted turns of the loop in thread [t] show, from cursor [k]. *)
Definition after_frame (w : World) : World :=
  set_stdout (print [frame_at (pos (symbol w))] EmptyString CR true (stdout w))
    (set_symbol {| saved := saved (symbol w); pos := S (pos (symbol w)) |} w).

Fixpoint after_frames (n : nat) (w : World) : World :=
  match n with
  | 0 => w
  | S m => after_frames m (after_frame w)
  end.

Definition turn (t : tid) : list op := [OpStep t; OpStep t; OpStep t].

Fixpoint turns (t : tid) (n : nat) : list op :=
  match n with
  | 0 => []
  | S m => turn t ++ turns t m
  end.

Fixpoint loop_trace (t : tid) (k n : nat) : trace :=
  match n with
  | 0 => []
  | S m =>
      (t, Tested false) :: (t, Printed (frame_at k)) :: (t, Slept Animation.interval)
      :: loop_trace t (S k) m
  end.

(** [n] copies of [s], one after the other. *)
Fixpoint repeat_string (n : nat) (s : string) : string :=
  match n with
  | 0 => EmptyString
  | S m => s +:+ repeat_string m s
  end.

(** ** The terminal line *)

(** What a terminal shows on the current line: printable characters replace
    what is under the cursor and move it right, a carriage return moves it
    back to the first column. *)
Fixpoint put (col : nat) (c : ascii) (line : list ascii) : list ascii :=
  match col, line with
  | 0, [] => [c]
  | 0, _ :: rest => c :: rest
  | S n, [] => " "%char :: put n c []
  | S n, x :: rest => x :: put n c rest
  end.

Fixpoint show (s : string) (col : nat) (line : list ascii) : nat * list ascii :=
  match s with
  | EmptyString => (col, line)
  | String c rest =>
      if Ascii.eqb c (ascii_of_nat 13) then show rest 0 line
      else show rest (S col) (put col c line)
  end.

(** A string without a carriage return or a line feed. *)
Fixpoint plain (s : string) : bool :=
  match s with
  | EmptyString => true
  | String c rest =>
      negb (Ascii.eqb c (ascii_of_nat 13)) && negb (Ascii.eqb c (ascii_of_nat 10))
      && plain rest
  end.

(** ** What reaches the terminal *)

(** The text of a run of prints, each ended by a carriage return. *)
Fixpoint chunks (items : list string) : string :=
  match items with
  | [] => EmptyString
  | s :: rest => s +:+ CR +:+ chunks rest
  end.

(** The strings one step of an interleaving prints: the clearing string for
    [stop] (alone, or called by [__exit__]), the frame for a statement of a
    loop that printed one. *)
Definition output_of_op (o : op) (tr : trace) : list string :=
  match o with
  | OpStop _ | OpStopClear | OpExit _ _ => [Animation.clear]
  | OpStep _ => printed tr
  | OpNew | OpStart _ | OpStopFlag _ | OpEnter _ => []
  end.

Fixpoint outputs (ops : list op) (w : World) : list string :=
  match ops with
  | [] => []
  | o :: rest =>
      let '(tr1, w1) := exec_op o w in
      output_of_op o tr1 ++ outputs rest w1
  end.

(** ** Counting loops and statements *)

(** The loops standing between their test and their [print]. *)
Definition pending (w : World) : nat :=
  sum_list ((fun th => prints_left (at_pc th)) <$> threads w).

(** Every started loop belongs to an instance whose flag is set. *)
Definition all_stopped (w : World) : bool :=
  forallb (fun th =>
             match get_finished w (self_of th) with
             | Some true => true
             | _ => false
             end) (threads w).

(** The steps that assign [True] to the flag of [self]. *)
Definition sets_flag (self : ref) (o : op) : bool :=
  match o with
  | OpStop s | OpStopFlag s | OpExit s _ => bool_decide (s = self)
  | OpNew | OpStart _ | OpStopClear | OpEnter _ | OpStep _ => false
  end.

(** The statements a loop has run since it last printed. *)
Definition since_print (p : pc) : nat :=
  match p with
  | AtSleep => 0
  | AtTest => 1
  | AtPrint => 2
  | Returned | Crashed _ => 0
  end.

(** [n] successive calls of [next] on a cycle. *)
Fixpoint nexts (n : nat) (c : cycle) : list string :=
  match n with
  | 0 => []
  | S m =>
      match next c with
      | Some (x, c') => x :: nexts m c'
      | None => []
      end
  end.

(** A string without a line feed. *)
Fixpoint no_line_feed (s : string) : bool :=
  match s with
  | EmptyString => true
  | String c rest => negb (Ascii.eqb c (ascii_of_nat 10)) && no_line_feed rest
  end.

(** ** The demonstration under [__main__] *)

(** While the calling thread is between two statements, busy or asleep,
    the loops run: [sched] names the threads whose statements run
    meanwhile, in order. *)
Definition background (sched : list tid) : M unit :=
  modify (fun w => snd (exec (OpStep <$> sched) w)).

(** [time.sleep(seconds)] in the calling thread: the loops have that time
    to themselves. *)
Definition time_sleep (seconds : Q) (sched : list tid) : M value :=
  do_ background sched;
  ret VNone.

(** [print(s)] with the defaults of [print]: a line feed after [s] and no
    flush. *)
Definition print_line (s : string) : M value :=
  do_ modify (fun w => set_stdout (print [s] " " LF false (stdout w)) w);
  ret VNone.

Definition TypeError (what : string) : exn :=
  {| exc_class := "TypeError"; exc_arg := what |}.

(** [long_running_function], before it is decorated: it takes no argument
    and sleeps two seconds. *)
Definition long_running_function (sched : list tid) : callable :=
  fun args kwargs =>
    match args, kwargs with
    | [], [] =>
        do_ time_sleep 2 sched;
        ret VNone
    | _, _ => raise (TypeError "long_running_function")
    end.

(** [animation.stop()] on what the [with] statement bound. *)
Definition call_stop (animation : value) : M value :=
  match animation with
  | VRef self => Animation.stop self
  | _ => raise {| exc_class := "AttributeError"; exc_arg := "stop" |}
  end.

(** The block under [__main__]; [sch i] is what the loops run at the
    [i]-th point where the calling thread can be overtaken. *)
Definition main (sch : nat -> list tid) : M value :=
  do_ background (sch 0);
  do_ print_line "Use as decorator";
  do_ background (sch 1);
  do_ wait_for_it (long_running_function (sch 2)) [] [];
  do_ background (sch 3);
  do_ print_line "Use as context manager";
  do_ background (sch 4);
  do_ call (with_stmt Animation.new Animation.__enter__ Animation.__exit__
              (fun animation =>
                 do_ time_sleep 1 (sch 5);
                 do_ call_stop animation;
                 do_ background (sch 6);
                 do_ print_line " ... animation stopped";
                 do_ time_sleep 2 (sch 7);
                 ret Normal));
  do_ background (sch 8);
  ret VNone.

(** ** Reasoning about the calling thread *)

(** From a state where [P] holds, [m] returns (it does not raise) a value
    and a state that [Q] holds of. *)
Definition returns {A} (m : M A) (P : World -> Prop) (Q : A -> World -> Prop) : Prop :=
  forall w, P w -> exists v w', m w = (Return v, w') /\ Q v w'.

(** The instances there are, and the instance of each started loop. *)
Definition shape (o : list instance) (ss : list ref) (w : World) : Prop :=
  objs w = o /\ self_of <$> threads w = ss.

(** * Properties *)

(** ** Printing *)

Lemma string_app_assoc (a b c : string) : (a +:+ b) +:+ c = a +:+ b +:+ c.
Proof. induction a as [|x a IH]; simpl; [reflexivity | now rewrite IH]. Qed.

Lemma string_app_nil_r (a : string) : a +:+ EmptyString = a.
Proof. induction a as [|x a IH]; simpl; [reflexivity | now rewrite IH]. Qed.

(** A flushed [print] of one object leaves nothing in the buffer: all that
    was pending, the object and the terminator have reached the terminal. *)
Lemma print_flushed (s end_ : string) (f : stream) :
  print [s] EmptyString end_ true f =
  {| buffer := EmptyString; delivered := delivered f +:+ buffer f +:+ s +:+ end_ |}.
Proof.
  unfold print, flush, write; simpl. now rewrite string_app_assoc.
Qed.

(** ** Frames *)

Lemma frames_length : length Animation.frames = 9.
Proof. reflexivity. Qed.

Lemma frame_at_lookup (k : nat) :
  Animation.frames !! (k mod length Animation.frames) = Some (frame_at k).
Proof.
  unfold frame_at.
  destruct (Animation.frames !! (k mod length Animation.frames)) eqn:E; [reflexivity|].
  apply lookup_ge_None in E. rewrite frames_length in E.
  pose proof (Nat.mod_upper_bound k 9). lia.
Qed.

Lemma frame_at_elem (k : nat) : frame_at k ∈ Animation.frames.
Proof. eapply list_elem_of_lookup_2, frame_at_lookup. Qed.

(** [next] on the cycle of frames never raises StopIteration: it hands out
    the frame under the cursor and moves the cursor by one. *)
Lemma next_frames (c : cycle) :
  saved c = Animation.frames ->
  next c = Some (frame_at (pos c), {| saved := Animation.frames; pos := S (pos c) |}).
Proof.
  intros E. unfold next. rewrite E, frame_at_lookup. reflexivity.
Qed.

Lemma frames_all_10 :
  Forall (fun f => String.length f = 10) Animation.frames.
Proof. repeat constructor. Qed.

(** ** The terminal line *)

Lemma put_middle (c : ascii) (l1 l2 : list ascii) (x : ascii) :
  put (length l1) c (l1 ++ x :: l2) = l1 ++ c :: l2.
Proof. induction l1 as [|y l1 IH]; simpl; [reflexivity | now rewrite IH]. Qed.

Lemma put_end (c : ascii) (l1 : list ascii) :
  put (length l1) c l1 = l1 ++ [c].
Proof. induction l1 as [|y l1 IH]; simpl; [reflexivity | now rewrite IH]. Qed.

(** Writing a plain string over an old line, from a column inside it:
    the new characters replace as many old ones as there are. *)
Lemma show_plain (s : string) (l1 l2 : list ascii) :
  plain s = true ->
  show s (length l1) (l1 ++ l2) =
  (length l1 + String.length s,
   l1 ++ list_ascii_of_string s ++ drop (String.length s) l2).
Proof.
  revert l1 l2. induction s as [|c s IH]; intros l1 l2 Hp; simpl in *.
  - rewrite Nat.add_0_r, drop_0. reflexivity.
  - apply andb_true_iff in Hp as [Hc Hs]. apply andb_true_iff in Hc as [Hcr _].
    apply negb_true_iff in Hcr. rewrite Hcr.
    destruct l2 as [|x l2].
    + rewrite app_nil_r, put_end.
      replace (S (length l1)) with (length (l1 ++ [c])) by (rewrite length_app; simpl; lia).
      rewrite <- (app_nil_r (l1 ++ [c])) at 2.
      rewrite (IH (l1 ++ [c]) [] Hs), length_app, <- app_assoc; simpl.
      rewrite drop_nil. f_equal. lia.
    + rewrite put_middle.
      replace (S (length l1)) with (length (l1 ++ [c])) by (rewrite length_app; simpl; lia).
      replace (l1 ++ c :: l2) with ((l1 ++ [c]) ++ l2) by (now rewrite <- app_assoc).
      rewrite (IH (l1 ++ [c]) l2 Hs), length_app, <- app_assoc; simpl.
      f_equal. lia.
Qed.

Lemma show_app (a b : string) (col : nat) (line : list ascii) :
  show (a +:+ b) col line = let '(col', line') := show a col line in show b col' line'.
Proof.
  revert col line. induction a as [|c a IH]; intros col line; simpl; [reflexivity|].
  destruct (Ascii.eqb c (ascii_of_nat 13)); apply IH.
Qed.

(** A plain string followed by a carriage return, written from the first
    column over a line that is not longer, leaves exactly that string. *)
Lemma show_covers (s : string) (line : list ascii) :
  plain s = true ->
  length line <= String.length s ->
  show (s +:+ CR) 0 line = (0, list_ascii_of_string s).
Proof.
  intros Hp Hlen. rewrite show_app.
  pose proof (show_plain s [] line Hp) as H. simpl in H. rewrite H.
  simpl. rewrite drop_ge by lia. now rewrite app_nil_r.
Qed.

(** ** The flag of an instance *)

Lemma get_finished_set_same (w : World) (self : ref) (b : bool) :
  self < length (objs w) ->
  get_finished (setattr_finished self b w) self = Some b.
Proof.
  intros Hlive. unfold get_finished, setattr_finished; simpl.
  now rewrite list_lookup_insert_eq.
Qed.

Lemma get_finished_live (w : World) (self : ref) (b : bool) :
  get_finished w self = Some b -> self < length (objs w).
Proof.
  unfold get_finished. intros H.
  destruct (objs w !! self) eqn:E; [|discriminate].
  eapply lookup_lt_Some, E.
Qed.

(** ** The methods, one by one *)

Lemma new_spec (w : World) :
  Animation.new w =
  (Return (length (objs w)),
   set_objs (objs w ++ [ {| finished := Some false |} ]) w).
Proof.
  unfold Animation.new, Animation.__init__, bind, modify, ret, setattr_finished,
    set_objs; simpl.
  do 2 f_equal.
  replace (length (objs w)) with (length (objs w) + 0) at 1 by lia.
  now rewrite insert_app_r.
Qed.

Lemma start_spec (self : ref) (w : World) :
  Animation.start self w =
  (Return VNone,
   set_threads (threads w ++ [ {| self_of := self; at_pc := AtTest |} ]) w).
Proof. reflexivity. Qed.

Lemma stop_spec (self : ref) (w : World) :
  Animation.stop self w =
  (Return VNone,
   set_stdout (print [Animation.clear] EmptyString CR true (stdout w))
     (setattr_finished self true w)).
Proof. reflexivity. Qed.

Lemma enter_spec (self : ref) (w : World) :
  Animation.__enter__ self w = (Return (VRef self), snd (Animation.start self w)).
Proof. reflexivity. Qed.

Lemma exit_spec (self : ref) (exc : option exn) (w : World) :
  Animation.__exit__ self exc w = (Return VNone, snd (Animation.stop self w)).
Proof. reflexivity. Qed.

(** The new instance is live, its flag is clear, and no older instance is
    touched. *)
Lemma new_finished (w : World) :
  get_finished (snd (Animation.new w)) (length (objs w)) = Some false.
Proof.
  rewrite new_spec. unfold get_finished; simpl.
  rewrite lookup_app_r by lia. now rewrite Nat.sub_diag.
Qed.

Lemma stop_finished (self : ref) (w : World) :
  self < length (objs w) ->
  get_finished (snd (Animation.stop self w)) self = Some true.
Proof. intros Hlive. rewrite stop_spec. now apply get_finished_set_same. Qed.

Lemma stop_stdout (self : ref) (w : World) :
  stdout (snd (Animation.stop self w)) =
  {| buffer := EmptyString;
     delivered := delivered (stdout w) +:+ buffer (stdout w)
                  +:+ Animation.clear +:+ CR |}.
Proof. rewrite stop_spec. simpl. apply print_flushed. Qed.

(** ** The scoped use of an instance *)

(** The [with] statement over an instance, whatever the block does. *)
Lemma with_animation (self : ref) (body : value -> M completion) (w : World) :
  with_stmt (ret self) Animation.__enter__ Animation.__exit__ body w =
  let '(r, w') := body (VRef self) (snd (Animation.start self w)) in
  (r, snd (Animation.stop self w')).
Proof.
  unfold with_stmt, bind, ret. rewrite enter_spec.
  destruct (body (VRef self) (snd (Animation.start self w))) as [[c|e] w'].
  - rewrite exit_spec. reflexivity.
  - rewrite exit_spec. reflexivity.
Qed.

(** C3. Used in a [with] statement, an instance is entered by [start] and
    bound to the block as itself, and it is left by [stop] however the
    block ends: by running to its end or returning, by raising, or after
    the block has called [stop] itself. *)
Theorem scoped_start_stop (self : ref) (body : value -> M completion) (w : World) :
  Animation.__enter__ self w = (Return (VRef self), snd (Animation.start self w))
  /\ (forall exc w', Animation.__exit__ self exc w' =
                     (Return VNone, snd (Animation.stop self w')))
  /\ with_stmt (ret self) Animation.__enter__ Animation.__exit__ body w =
     (let '(r, w') := body (VRef self) (snd (Animation.start self w)) in
      (r, snd (Animation.stop self w')))
  /\ with_stmt (ret self) Animation.__enter__ Animation.__exit__
       (fun x => do_ Animation.stop self; body x) w =
     (let '(r, w') :=
        body (VRef self) (snd (Animation.stop self (snd (Animation.start self w)))) in
      (r, snd (Animation.stop self w'))).
Proof.
  split; [apply enter_spec|]. split; [intros; apply exit_spec|].
  split; [apply with_animation|].
  rewrite with_animation. unfold bind. rewrite stop_spec. reflexivity.
Qed.

(** ** The decorator *)

(** What a call of the wrapped callable does: a new instance is made and
    started, [func] runs, the instance is stopped, and the caller gets the
    outcome of [func]. *)
Lemma wait_for_it_spec (func : callable) args kwargs (w : World) :
  wait_for_it func args kwargs w =
  let self := length (objs w) in
  let '(r, w') :=
    func args kwargs (snd (Animation.start self (snd (Animation.new w)))) in
  (r, snd (Animation.stop self w')).
Proof.
  unfold wait_for_it, call, with_stmt, bind. rewrite new_spec, enter_spec. simpl.
  destruct (func args kwargs _) as [[v|e] w']; reflexivity.
Qed.

(** C1. A call of [wait_for_it func] returns the value the call of [func]
    it makes returns. *)
Theorem wait_for_it_returns (func : callable) args kwargs (w : World) v w' :
  func args kwargs
    (snd (Animation.start (length (objs w)) (snd (Animation.new w)))) = (Return v, w') ->
  fst (wait_for_it func args kwargs w) = Return v.
Proof. intros H. rewrite wait_for_it_spec. cbv zeta. now rewrite H. Qed.

Lemma wait_for_it_returns_witness :
  fst (wait_for_it sample_sum [VInt 1; VInt 2] [("key", VInt 3)] initial)
  = Return (VInt 6).
Proof.
  eapply (wait_for_it_returns sample_sum [VInt 1; VInt 2] [("key", VInt 3)] initial).
  reflexivity.
Defined.

(** C2. When [func] raises, the call of [wait_for_it func] raises the same
    exception, and the caller sees it with the instance already stopped:
    its flag set and the clearing frame written after all [func] wrote. *)
Theorem wait_for_it_raises (func : callable) args kwargs (w : World) e w' :
  func args kwargs
    (snd (Animation.start (length (objs w)) (snd (Animation.new w)))) = (Raise e, w') ->
  let self := length (objs w) in
  let final := snd (wait_for_it func args kwargs w) in
  fst (wait_for_it func args kwargs w) = Raise e
  /\ final = snd (Animation.stop self w')
  /\ objs final = <[self := {| finished := Some true |}]> (objs w')
  /\ stdout final =
     {| buffer := EmptyString;
        delivered := delivered (stdout w') +:+ buffer (stdout w')
                     +:+ Animation.clear +:+ CR |}.
Proof.
  intros H self final. subst final self. rewrite wait_for_it_spec. cbv zeta.
  rewrite H. cbn [fst snd]. rewrite stop_spec. cbn [snd].
  repeat split. apply print_flushed.
Qed.

Lemma wait_for_it_raises_witness :
  let f : callable := fun _ _ => raise {| exc_class := "RuntimeError"; exc_arg := "x" |} in
  fst (wait_for_it f [] [] initial) = Raise {| exc_class := "RuntimeError"; exc_arg := "x" |}
  /\ get_finished (snd (wait_for_it f [] [] initial)) 0 = Some true
  /\ delivered (stdout (snd (wait_for_it f [] [] initial))) = Animation.clear +:+ CR.
Proof.
  intros f.
  destruct (wait_for_it_raises f [] [] initial
              {| exc_class := "RuntimeError"; exc_arg := "x" |}
              (snd (Animation.start 0 (snd (Animation.new initial)))) eq_refl)
    as (Hr & Hw & Ho & Hs).
  split; [exact Hr|]. split.
  - unfold get_finished. rewrite Ho. reflexivity.
  - rewrite Hs. reflexivity.
Defined.

(** ** Interleavings, in general *)

Lemma exec_app (l1 l2 : list op) (w : World) :
  exec (l1 ++ l2) w =
  let '(tr1, w1) := exec l1 w in
  let '(tr2, w2) := exec l2 w1 in
  (tr1 ++ tr2, w2).
Proof.
  revert w. induction l1 as [|o l1 IH]; intros w; simpl.
  - now destruct (exec l2 w).
  - destruct (exec_op o w) as [tr0 w0]. rewrite IH.
    destruct (exec l1 w0) as [tr1 w1]. destruct (exec l2 w1) as [tr2 w2].
    now rewrite app_assoc.
Qed.

Lemma exec_snoc_stop (l : list op) (self : ref) (w : World) :
  snd (exec (l ++ [OpStop self]) w) = snd (Animation.stop self (snd (exec l w))).
Proof.
  rewrite exec_app. destruct (exec l w) as [tr1 w1]. reflexivity.
Qed.

(** A statement of the loop leaves the instances alone. *)
Lemma animate_objs (t : tid) (w : World) ev w' :
  _animate t w = Some (ev, w') -> objs w' = objs w.
Proof.
  unfold _animate. intros H.
  destruct (threads w !! t) as [th|]; [|discriminate].
  destruct (at_pc th); try discriminate.
  - destruct (get_finished w (self_of th)) as [[|]|]; inversion H; reflexivity.
  - destruct (next (self_symbol w (self_of th))) as [[f c]|]; inversion H; reflexivity.
  - inversion H; reflexivity.
Qed.

(** What a step can do to the instances: nothing, add a new one with a
    clear flag, or set the flag of one. *)
Lemma exec_op_objs (o : op) (w : World) :
  objs (snd (exec_op o w)) = objs w
  \/ objs (snd (exec_op o w)) = objs w ++ [ {| finished := Some false |} ]
  \/ exists self,
       objs (snd (exec_op o w)) = <[self := {| finished := Some true |}]> (objs w).
Proof.
  destruct o; cbn [exec_op snd].
  - right; left. now rewrite new_spec.
  - now left.
  - right; right. now exists self.
  - right; right. now exists self.
  - now left.
  - now left.
  - right; right. now exists self.
  - left. destruct (_animate t w) as [[ev w']|] eqn:E; [|reflexivity].
    apply (animate_objs _ _ _ _ E).
Qed.

Lemma exec_op_objs_length (o : op) (w : World) :
  length (objs w) <= length (objs (snd (exec_op o w))).
Proof.
  destruct (exec_op_objs o w) as [H|[H|[self H]]]; rewrite H.
  - lia.
  - rewrite length_app. simpl. lia.
  - rewrite length_insert. lia.
Qed.

Lemma exec_objs_length (ops : list op) (w : World) :
  length (objs w) <= length (objs (snd (exec ops w))).
Proof.
  revert w. induction ops as [|o ops IH]; intros w; simpl; [lia|].
  pose proof (exec_op_objs_length o w) as H1.
  destruct (exec_op o w) as [tr1 w1].
  specialize (IH w1). destruct (exec ops w1) as [tr2 w2]. simpl in *. lia.
Qed.

(** ** Stopping, once and again *)

Lemma stop_again_stdout (self : ref) (n : nat) (w : World) :
  stdout (snd (exec (repeat (OpStop self) (S n)) w)) =
  {| buffer := EmptyString;
     delivered := delivered (stdout w) +:+ buffer (stdout w)
                  +:+ repeat_string (S n) (Animation.clear +:+ CR) |}.
Proof.
  revert w. induction n as [|n IH]; intros w.
  - cbn [repeat exec exec_op snd]. rewrite stop_stdout. cbn [repeat_string].
    now rewrite string_app_nil_r.
  - change (repeat (OpStop self) (S (S n)))
      with (OpStop self :: repeat (OpStop self) (S n)).
    cbn [exec exec_op].
    specialize (IH (snd (Animation.stop self w))).
    destruct (exec (repeat (OpStop self) (S n)) (snd (Animation.stop self w)))
      as [tr2 w2]; cbn [snd] in *.
    rewrite IH, stop_stdout. cbn [buffer delivered].
    change (repeat_string (S (S n)) (Animation.clear +:+ CR))
      with ((Animation.clear +:+ CR) +:+ repeat_string (S n) (Animation.clear +:+ CR)).
    f_equal. cbn [String.append]. now rewrite !string_app_assoc.
Qed.

(** C4. [stop] can be called any number of times on an instance: the call
    after [k] earlier ones returns without raising, leaves [finished] true,
    and writes the clearing frame once more, so that [k + 1] calls have
    written [k + 1] clearing frames. *)
Theorem stop_idempotent (self : ref) (w : World) (k : nat) :
  self < length (objs w) ->
  let before := snd (exec (repeat (OpStop self) k) w) in
  let after := snd (exec (repeat (OpStop self) (S k)) w) in
  Animation.stop self before = (Return VNone, after)
  /\ get_finished after self = Some true
  /\ stdout after =
     {| buffer := EmptyString;
        delivered := delivered (stdout before) +:+ buffer (stdout before)
                     +:+ Animation.clear +:+ CR |}
  /\ stdout after =
     {| buffer := EmptyString;
        delivered := delivered (stdout w) +:+ buffer (stdout w)
                     +:+ repeat_string (S k) (Animation.clear +:+ CR) |}.
Proof.
  intros Hlive before after.
  assert (Hafter : after = snd (Animation.stop self before)).
  { subst after before. rewrite <- exec_snoc_stop. f_equal.
    change [OpStop self] with (repeat (OpStop self) 1).
    rewrite <- repeat_app. f_equal. f_equal. lia. }
  split; [rewrite Hafter; apply stop_spec|].
  split.
  { rewrite Hafter. apply stop_finished.
    pose proof (exec_objs_length (repeat (OpStop self) k) w). fold before in H. lia. }
  split; [rewrite Hafter; apply stop_stdout|].
  apply stop_again_stdout.
Qed.

Lemma stop_idempotent_witness :
  let w := snd (Animation.new initial) in
  Animation.stop 0 (snd (exec [OpStop 0; OpStop 0] w))
  = (Return VNone, snd (exec [OpStop 0; OpStop 0; OpStop 0] w))
  /\ get_finished (snd (exec [OpStop 0; OpStop 0; OpStop 0] w)) 0 = Some true.
Proof.
  intros w.
  assert (Hlive : 0 < length (objs w)) by (vm_compute; lia).
  destruct (stop_idempotent 0 w 2 Hlive) as (H1 & H2 & _).
  split; [exact H1 | exact H2].
Defined.

(** C10. [stop] on an instance that was made and never started returns
    without raising, sets [finished] and writes the clearing frame; it does
    to the flag and to standard output what it does once the instance is
    started. *)
Theorem stop_before_start (w : World) :
  let self := length (objs w) in
  let fresh := snd (Animation.new w) in
  let running := snd (Animation.start self fresh) in
  Animation.new w = (Return self, fresh)
  /\ get_finished fresh self = Some false
  /\ threads fresh = threads w
  /\ fst (Animation.stop self fresh) = Return VNone
  /\ get_finished (snd (Animation.stop self fresh)) self = Some true
  /\ stdout (snd (Animation.stop self fresh)) =
     {| buffer := EmptyString;
        delivered := delivered (stdout w) +:+ buffer (stdout w)
                     +:+ Animation.clear +:+ CR |}
  /\ fst (Animation.stop self running) = fst (Animation.stop self fresh)
  /\ objs (snd (Animation.stop self running)) = objs (snd (Animation.stop self fresh))
  /\ stdout (snd (Animation.stop self running)) = stdout (snd (Animation.stop self fresh)).
Proof.
  intros self fresh running. subst running fresh self.
  assert (Hlive : length (objs w) < length (objs (snd (Animation.new w)))).
  { rewrite new_spec. simpl. rewrite length_app. simpl. lia. }
  split; [now rewrite new_spec|].
  split; [apply new_finished|].
  split; [now rewrite new_spec|].
  split; [reflexivity|].
  split; [now apply stop_finished|].
  split; [rewrite stop_stdout; now rewrite new_spec|].
  repeat split.
Qed.

(** ** The width of the frames *)

Lemma length_list_ascii_of_string (s : string) :
  length (list_ascii_of_string s) = String.length s.
Proof. induction s as [|c s IH]; simpl; [reflexivity | now rewrite IH]. Qed.

Lemma frames_plain : Forall (fun f => plain f = true) (Animation.clear :: Animation.frames).
Proof. repeat constructor. Qed.

(** C8. The nine frames of a cycle and the clearing string are all ten
    characters long, so the clearing string is as wide as the widest frame;
    every frame the cycle hands out has that length; and any of them,
    written with its carriage return over any other, is all the line
    shows. *)
Theorem frame_width :
  Forall (fun f => String.length f = 10) Animation.frames
  /\ String.length Animation.clear = 10
  /\ Forall (fun f => String.length f <= String.length Animation.clear) Animation.frames
  /\ (forall c, saved c = Animation.frames ->
        exists f c', next c = Some (f, c') /\ f ∈ Animation.frames
                     /\ String.length f = 10)
  /\ (forall old new,
        old ∈ Animation.clear :: Animation.frames ->
        new ∈ Animation.clear :: Animation.frames ->
        show (new +:+ CR) 0 (list_ascii_of_string old) = (0, list_ascii_of_string new)).
Proof.
  assert (Hall : Forall (fun f => String.length f = 10)
                   (Animation.clear :: Animation.frames)) by (repeat constructor).
  split; [apply frames_all_10|]. split; [reflexivity|].
  split; [repeat constructor|]. split.
  - intros c Hc. eexists _, _. split; [apply (next_frames c Hc)|].
    split; [apply frame_at_elem|].
    pose proof frames_all_10 as H. rewrite Forall_forall in H.
    apply H, frame_at_elem.
  - intros old new Hold Hnew.
    pose proof frames_plain as Hp. rewrite Forall_forall in Hp, Hall.
    apply show_covers; [now apply Hp|].
    rewrite length_list_ascii_of_string, (Hall old Hold), (Hall new Hnew). lia.
Qed.

(** ** The loop, statement by statement *)

Lemma set_pc_same (t : tid) (th : thread) (w : World) :
  threads w !! t = Some th -> set_pc t (at_pc th) w = w.
Proof.
  intros Hth. unfold set_pc, set_threads. destruct w as [sy ob ts out].
  cbn [threads symbol objs stdout] in *.
  f_equal. apply list_eq. intros i.
  destruct (decide (t = i)) as [->|Hne].
  - rewrite list_lookup_alter_eq, Hth. now destruct th.
  - now rewrite list_lookup_alter_ne.
Qed.

Lemma set_pc_twice (t : tid) (p q : pc) (w : World) :
  set_pc t p (set_pc t q w) = set_pc t p w.
Proof.
  unfold set_pc, set_threads; simpl. f_equal. apply list_eq. intros i.
  destruct (decide (t = i)) as [->|Hne].
  - rewrite !list_lookup_alter_eq. now destruct (threads w !! i).
  - now rewrite !list_lookup_alter_ne.
Qed.

Lemma set_pc_lookup (t : tid) (p : pc) (th : thread) (w : World) :
  threads w !! t = Some th ->
  threads (set_pc t p w) !! t = Some {| self_of := self_of th; at_pc := p |}.
Proof. intros Hth. unfold set_pc; simpl. now rewrite list_lookup_alter_eq, Hth. Qed.

Lemma set_pc_lookup_ne (t t' : tid) (p : pc) (w : World) :
  t' <> t -> threads (set_pc t' p w) !! t = threads w !! t.
Proof. intros Hne. unfold set_pc; simpl. now rewrite list_lookup_alter_ne. Qed.

Lemma animate_test_true (t : tid) (th : thread) (w : World) :
  threads w !! t = Some th -> at_pc th = AtTest ->
  get_finished w (self_of th) = Some true ->
  _animate t w = Some (Tested true, set_pc t Returned w).
Proof. intros Hth Hpc Hf. unfold _animate. now rewrite Hth, Hpc, Hf. Qed.

Lemma animate_test_false (t : tid) (th : thread) (w : World) :
  threads w !! t = Some th -> at_pc th = AtTest ->
  get_finished w (self_of th) = Some false ->
  _animate t w = Some (Tested false, set_pc t AtPrint w).
Proof. intros Hth Hpc Hf. unfold _animate. now rewrite Hth, Hpc, Hf. Qed.

Lemma animate_print (t : tid) (th : thread) (w : World) :
  threads w !! t = Some th -> at_pc th = AtPrint ->
  saved (symbol w) = Animation.frames ->
  _animate t w =
  Some (Printed (frame_at (pos (symbol w))), set_pc t AtSleep (after_frame w)).
Proof.
  intros Hth Hpc Hs. unfold _animate, self_symbol.
  rewrite Hth, Hpc, (next_frames _ Hs). unfold after_frame. now rewrite Hs.
Qed.

Lemma animate_sleep (t : tid) (th : thread) (w : World) :
  threads w !! t = Some th -> at_pc th = AtSleep ->
  _animate t w = Some (Slept Animation.interval, set_pc t AtTest w).
Proof. intros Hth Hpc. unfold _animate. now rewrite Hth, Hpc. Qed.

Lemma animate_ended (t : tid) (th : thread) (w : World) :
  threads w !! t = Some th -> ended (at_pc th) = true -> _animate t w = None.
Proof.
  intros Hth Hpc. unfold _animate. rewrite Hth.
  destruct (at_pc th); try discriminate; reflexivity.
Qed.

(** A statement of one thread leaves every other thread where it stands. *)
Lemma animate_threads_ne (t t' : tid) (w : World) ev w' :
  _animate t' w = Some (ev, w') -> t' <> t -> threads w' !! t = threads w !! t.
Proof.
  unfold _animate. intros H Hne.
  destruct (threads w !! t') as [th|]; [|discriminate].
  destruct (at_pc th); try discriminate.
  - destruct (get_finished w (self_of th)) as [[|]|]; inversion H;
      now apply set_pc_lookup_ne.
  - destruct (next (self_symbol w (self_of th))) as [[f c]|]; inversion H;
      now rewrite set_pc_lookup_ne.
  - inversion H. now apply set_pc_lookup_ne.
Qed.

(** One full turn of the loop while the flag is clear. *)
Lemma exec_turn (t : tid) (th : thread) (w : World) :
  threads w !! t = Some th -> at_pc th = AtTest ->
  get_finished w (self_of th) = Some false ->
  saved (symbol w) = Animation.frames ->
  exec (turn t) w =
  ([(t, Tested false); (t, Printed (frame_at (pos (symbol w))));
    (t, Slept Animation.interval)],
   after_frame w).
Proof.
  intros Hth Hpc Hf Hs. unfold turn. cbn [exec exec_op].
  rewrite (animate_test_false t th w Hth Hpc Hf).
  pose proof (set_pc_lookup t AtPrint th w Hth) as H1.
  rewrite (animate_print t _ _ H1 eq_refl Hs).
  assert (H2 : threads (set_pc t AtSleep (after_frame (set_pc t AtPrint w))) !! t
               = Some {| self_of := self_of th; at_pc := AtSleep |}).
  { apply (set_pc_lookup t AtSleep {| self_of := self_of th; at_pc := AtPrint |}).
    exact H1. }
  rewrite (animate_sleep t _ _ H2 eq_refl). cbn [app].
  f_equal. rewrite set_pc_twice.
  change (after_frame (set_pc t AtPrint w)) with (set_pc t AtPrint (after_frame w)).
  rewrite set_pc_twice. rewrite <- Hpc. apply set_pc_same. exact Hth.
Qed.

Lemma exec_turns (t : tid) (th : thread) (n : nat) (w : World) :
  threads w !! t = Some th -> at_pc th = AtTest ->
  get_finished w (self_of th) = Some false ->
  saved (symbol w) = Animation.frames ->
  exec (turns t n) w = (loop_trace t (pos (symbol w)) n, after_frames n w).
Proof.
  revert w. induction n as [|n IH]; intros w Hth Hpc Hf Hs; [reflexivity|].
  cbn [turns loop_trace after_frames]. rewrite exec_app.
  rewrite (exec_turn t th w Hth Hpc Hf Hs).
  rewrite (IH (after_frame w) Hth Hpc Hf Hs). reflexivity.
Qed.

(** ** The flag only ever goes up *)

Lemma exec_op_finished (o : op) (w : World) (self : ref) (b : bool) :
  get_finished w self = Some b ->
  get_finished (snd (exec_op o w)) self = Some b
  \/ get_finished (snd (exec_op o w)) self = Some true.
Proof.
  intros Hf. pose proof (get_finished_live _ _ _ Hf) as Hlive.
  unfold get_finished in *.
  destruct (exec_op_objs o w) as [H|[H|[other H]]]; rewrite H.
  - now left.
  - left. now rewrite lookup_app_l.
  - destruct (decide (other = self)) as [->|Hne].
    + right. now rewrite list_lookup_insert_eq.
    + left. now rewrite list_lookup_insert_ne.
Qed.

Lemma exec_op_finished_true (o : op) (w : World) (self : ref) :
  get_finished w self = Some true ->
  get_finished (snd (exec_op o w)) self = Some true.
Proof. intros Hf. now destruct (exec_op_finished o w self true Hf). Qed.

Lemma exec_finished (ops : list op) (w : World) (self : ref) (b : bool) :
  get_finished w self = Some b ->
  get_finished (snd (exec ops w)) self = Some b
  \/ get_finished (snd (exec ops w)) self = Some true.
Proof.
  revert w b. induction ops as [|o ops IH]; intros w b Hf; [now left|].
  cbn [exec]. pose proof (exec_op_finished o w self b Hf) as H1.
  destruct (exec_op o w) as [tr1 w1]. cbn [snd] in H1.
  destruct H1 as [H1|H1].
  - specialize (IH w1 b H1). now destruct (exec ops w1).
  - specialize (IH w1 true H1). destruct (exec ops w1). right. now destruct IH.
Qed.

Lemma exec_finished_true (ops : list op) (w : World) (self : ref) :
  get_finished w self = Some true ->
  get_finished (snd (exec ops w)) self = Some true.
Proof. intros Hf. now destruct (exec_finished ops w self true Hf). Qed.

(** ** A loop whose flag is set *)

(** What one step of an interleaving does to a thread whose flag is set:
    the thread stays bound to its instance, a step of its own takes it one
    statement nearer the end, and it prints and sleeps only as far as its
    place in the loop still allows. *)
Lemma exec_op_stopped (o : op) (w : World) (t : tid) (th : thread) :
  threads w !! t = Some th ->
  get_finished w (self_of th) = Some true ->
  exists th',
    threads (snd (exec_op o w)) !! t = Some th'
    /\ self_of th' = self_of th
    /\ length (printed_by t (fst (exec_op o w))) + prints_left (at_pc th')
       <= prints_left (at_pc th)
    /\ length (slept_by t (fst (exec_op o w))) + sleeps_left (at_pc th')
       <= sleeps_left (at_pc th)
    /\ (is_step t o = true -> steps_left (at_pc th') <= pred (steps_left (at_pc th)))
    /\ (is_step t o = false -> at_pc th' = at_pc th)
    /\ (calm (at_pc th) = true -> calm (at_pc th') = true)
    /\ (ended (at_pc th) = true -> at_pc th' = at_pc th).
Proof.
  intros Hth Hf.
  assert (Hsame : forall w', threads w' !! t = Some th ->
            exists th', threads w' !! t = Some th' /\ self_of th' = self_of th
              /\ 0 + prints_left (at_pc th') <= prints_left (at_pc th)
              /\ 0 + sleeps_left (at_pc th') <= sleeps_left (at_pc th)
              /\ (false = true -> steps_left (at_pc th') <= pred (steps_left (at_pc th)))
              /\ (false = false -> at_pc th' = at_pc th)
              /\ (calm (at_pc th) = true -> calm (at_pc th') = true)
              /\ (ended (at_pc th) = true -> at_pc th' = at_pc th)).
  { intros w' H. exists th. repeat split; intros; auto; try lia; try discriminate. }
  destruct o; cbn [exec_op fst snd is_step printed_by slept_by omap length];
    try (apply Hsame; first
           [ exact Hth
           | rewrite new_spec; exact Hth
           | cbn; now apply lookup_app_l_Some ]).
  destruct (decide (t0 = t)) as [->|Hne].
  - rewrite bool_decide_eq_true_2 by reflexivity.
    unfold _animate. rewrite Hth.
    destruct (at_pc th) eqn:Hpc.
    + rewrite Hf. cbn [fst snd]. eexists. split; [apply (set_pc_lookup _ _ _ _ Hth)|].
      cbn. repeat split; intros; auto; try lia; try discriminate.
    + destruct (next (self_symbol w (self_of th))) as [[f c]|]; cbn [fst snd].
      * eexists. split; [apply (set_pc_lookup t AtSleep th); exact Hth|].
        cbn. rewrite decide_True by reflexivity.
        repeat split; intros; auto; cbn; try lia; try discriminate.
      * eexists. split; [apply (set_pc_lookup _ _ _ _ Hth)|].
        cbn. repeat split; intros; auto; try lia; try discriminate.
    + cbn [fst snd]. eexists. split; [apply (set_pc_lookup _ _ _ _ Hth)|].
      cbn. rewrite decide_True by reflexivity.
      repeat split; intros; auto; try lia; try discriminate.
    + cbn [fst snd]. exists th. rewrite Hpc. cbn.
      repeat split; intros; auto; try lia; try discriminate.
    + cbn [fst snd]. exists th. rewrite Hpc. cbn.
      repeat split; intros; auto; try lia; try discriminate.
  - rewrite bool_decide_eq_false_2 by exact Hne.
    destruct (_animate t0 w) as [[ev w']|] eqn:E; cbn [fst snd].
    + pose proof (animate_threads_ne t t0 w ev w' E Hne) as Hk.
      rewrite <- Hk in Hth.
      destruct (Hsame w' Hth) as (th' & H1 & H2 & H3 & H4 & H5 & H6 & H7 & H8).
      exists th'. destruct ev; cbn; try rewrite decide_False by exact Hne;
        cbn; repeat split; auto.
    + apply Hsame. exact Hth.
Qed.

Lemma steps_of_cons (t : tid) (o : op) (ops : list op) :
  steps_of t (o :: ops) = (if is_step t o then 1 else 0) + steps_of t ops.
Proof. unfold steps_of. simpl. now destruct (is_step t o). Qed.

(** The same over a whole interleaving. *)
Lemma exec_stopped (ops : list op) (w : World) (t : tid) (th : thread) :
  threads w !! t = Some th ->
  get_finished w (self_of th) = Some true ->
  exists th',
    threads (snd (exec ops w)) !! t = Some th'
    /\ self_of th' = self_of th
    /\ get_finished (snd (exec ops w)) (self_of th) = Some true
    /\ length (printed_by t (fst (exec ops w))) + prints_left (at_pc th')
       <= prints_left (at_pc th)
    /\ length (slept_by t (fst (exec ops w))) + sleeps_left (at_pc th')
       <= sleeps_left (at_pc th)
    /\ steps_left (at_pc th') <= steps_left (at_pc th) - steps_of t ops
    /\ (calm (at_pc th) = true -> calm (at_pc th') = true)
    /\ (ended (at_pc th) = true -> at_pc th' = at_pc th).
Proof.
  revert w th. induction ops as [|o ops IH]; intros w th Hth Hf.
  - exists th. cbn. repeat split; auto; lia.
  - destruct (exec_op_stopped o w t th Hth Hf)
      as (th1 & H1 & H2 & H3 & H4 & H5 & H6 & H7 & H8).
    pose proof (exec_op_finished_true o w _ Hf) as Hf1.
    rewrite steps_of_cons. cbn [exec].
    destruct (exec_op o w) as [tr1 w1]. cbn [fst snd] in *.
    rewrite <- H2 in Hf1.
    destruct (IH w1 th1 H1 Hf1) as (th2 & K1 & K2 & K3 & K4 & K5 & K6 & K7 & K8).
    destruct (exec ops w1) as [tr2 w2]. cbn [fst snd] in *.
    exists th2. unfold printed_by, slept_by in *. rewrite !omap_app, !length_app.
    split; [exact K1|]. split; [congruence|]. split; [now rewrite <- H2|].
    split; [lia|]. split; [lia|]. split.
    + destruct (is_step t o).
      * specialize (H5 eq_refl). lia.
      * rewrite (H6 eq_refl) in K6. lia.
    + split; [auto|]. intros He. rewrite K8; [now apply H8|].
      rewrite (H8 He). exact He.
Qed.

(** C7. Once [finished] is set, a loop bound to the instance writes at most
    one more frame, and only when it stood between its test and its
    [print]; it sleeps at most once more; after three statements of its own
    at the latest it has ended, and whatever is scheduled after that, it
    writes nothing again. *)
Theorem loop_stops_after_flag (w : World) (t : tid) (th : thread) (ops : list op) :
  threads w !! t = Some th ->
  get_finished w (self_of th) = Some true ->
  let tr := fst (exec ops w) in
  let w' := snd (exec ops w) in
  length (printed_by t tr) <= 1
  /\ (at_pc th <> AtPrint -> printed_by t tr = [])
  /\ length (slept_by t tr) <= 1
  /\ (3 <= steps_of t ops -> exists p, pc_of w' t = Some p /\ ended p = true)
  /\ (forall p, pc_of w' t = Some p -> ended p = true ->
        forall more,
          printed_by t (fst (exec more w')) = []
          /\ pc_of (snd (exec more w')) t = Some p).
Proof.
  intros Hth Hf tr w'. subst tr w'.
  destruct (exec_stopped ops w t th Hth Hf)
    as (th' & H1 & H2 & H3 & H4 & H5 & H6 & H7 & H8).
  split; [destruct (at_pc th); cbn in H4; lia|].
  split.
  { intros Hpc. apply length_zero_iff_nil.
    destruct (at_pc th); cbn in H4; try lia. now contradiction Hpc. }
  split; [destruct (at_pc th); cbn in H5; lia|].
  split.
  { intros H3steps. exists (at_pc th'). unfold pc_of. rewrite H1. split; [reflexivity|].
    assert (steps_left (at_pc th') = 0) by (destruct (at_pc th); cbn in H6; lia).
    now destruct (at_pc th'). }
  intros p Hp He more. unfold pc_of in Hp. rewrite H1 in Hp. cbn in Hp.
  injection Hp as <-. rewrite <- H2 in H3.
  destruct (exec_stopped more _ t th' H1 H3)
    as (th2 & K1 & K2 & K3 & K4 & K5 & K6 & K7 & K8).
  split.
  - apply length_zero_iff_nil. destruct (at_pc th'); cbn in K4; try discriminate; lia.
  - unfold pc_of. rewrite K1. cbn. now rewrite (K8 He).
Qed.

Lemma loop_stops_after_flag_witness :
  let w := snd (exec [OpNew; OpStart 0; OpStep 0; OpStopFlag 0] initial) in
  let ops := [OpStopClear; OpStep 0; OpStep 0; OpStep 0; OpStep 0] in
  length (printed_by 0 (fst (exec ops w))) <= 1
  /\ pc_of (snd (exec ops w)) 0 = Some Returned.
Proof.
  intros w ops.
  assert (Hth : threads w !! 0 = Some {| self_of := 0; at_pc := AtPrint |})
    by reflexivity.
  destruct (loop_stops_after_flag w 0 _ ops Hth eq_refl) as (H1 & _).
  split; [exact H1 | reflexivity].
Defined.

(** C5. The flag of an instance is clear when the instance is made and is
    only ever changed to true: set once, it stays set through every method
    call and every statement of every loop.  A thread started after that
    leaves its loop at the first test, without printing a frame. *)
Theorem finished_only_rises (w : World) (self : ref) (b : bool) (ops : list op) :
  get_finished w self = Some b ->
  get_finished (snd (Animation.new w)) (length (objs w)) = Some false
  /\ (get_finished (snd (exec ops w)) self = Some b
      \/ get_finished (snd (exec ops w)) self = Some true)
  /\ (b = true -> get_finished (snd (exec ops w)) self = Some true)
  /\ (b = true ->
      let t := length (threads w) in
      let w1 := snd (Animation.start self w) in
      exec [OpStep t] w1 = ([(t, Tested true)], set_pc t Returned w1)
      /\ printed_by t (fst (exec ops w1)) = []
      /\ (1 <= steps_of t ops -> pc_of (snd (exec ops w1)) t = Some Returned)).
Proof.
  intros Hf. split; [apply new_finished|]. split; [now apply exec_finished|].
  split; [intros ->; now apply exec_finished_true|].
  intros -> t w1.
  assert (Hth : threads w1 !! t = Some {| self_of := self; at_pc := AtTest |}).
  { subst w1 t. rewrite start_spec. cbn. apply list_lookup_middle. reflexivity. }
  assert (Hf1 : get_finished w1 self = Some true) by exact Hf.
  split.
  { cbn [exec exec_op]. now rewrite (animate_test_true t _ w1 Hth eq_refl Hf1). }
  destruct (exec_stopped ops w1 t _ Hth Hf1)
    as (th' & H1 & H2 & H3 & H4 & H5 & H6 & H7 & H8).
  cbn [prints_left steps_left calm at_pc] in H4, H6, H7. split.
  - apply length_zero_iff_nil. lia.
  - intros Hsteps. unfold pc_of. rewrite H1. cbn.
    specialize (H7 eq_refl).
    assert (steps_left (at_pc th') = 0) by lia.
    destruct (at_pc th'); try discriminate; reflexivity.
Qed.

Lemma finished_only_rises_witness :
  let w := snd (exec [OpNew; OpStop 0] initial) in
  get_finished (snd (exec [OpNew; OpStart 0; OpStep 0] w)) 0 = Some true
  /\ printed_by 0 (fst (exec [OpStep 0; OpStep 0]
                          (snd (Animation.start 0 w)))) = [].
Proof.
  intros w.
  assert (Hf : get_finished w 0 = Some true) by reflexivity.
  split.
  - destruct (finished_only_rises w 0 true [OpNew; OpStart 0; OpStep 0] Hf)
      as (_ & _ & H & _).
    exact (H eq_refl).
  - destruct (finished_only_rises w 0 true [OpStep 0; OpStep 0] Hf)
      as (_ & _ & _ & H).
    destruct (H eq_refl) as (_ & H2 & _). exact H2.
Defined.

(** ** One turn of the loop after another *)

Lemma exec_ended (t : tid) (th : thread) (w : World) (m : nat) :
  threads w !! t = Some th -> ended (at_pc th) = true ->
  exec (repeat (OpStep t) m) w = ([], w).
Proof.
  intros Hth He. induction m as [|m IH]; [reflexivity|].
  cbn [repeat exec exec_op]. rewrite (animate_ended t th w Hth He), IH. reflexivity.
Qed.

(** C6. While [finished] is false the loop of a started thread goes round:
    each turn tests the flag, takes the next frame from the cycle the class
    holds, prints it followed by a carriage return and no line feed with
    nothing left in the buffer, and then sleeps 0.075 seconds before the
    next test.  When the test finds the flag set the loop is left for
    good. *)
Theorem animate_loop (w : World) (t : tid) (th : thread) (n : nat) :
  threads w !! t = Some th ->
  at_pc th = AtTest ->
  saved (symbol w) = Animation.frames ->
  (get_finished w (self_of th) = Some false ->
     exec (turns t n) w = (loop_trace t (pos (symbol w)) n, after_frames n w))
  /\ (get_finished w (self_of th) = Some true ->
        exec [OpStep t] w = ([(t, Tested true)], set_pc t Returned w)
        /\ forall m, exec (repeat (OpStep t) m) (set_pc t Returned w)
                     = ([], set_pc t Returned w))
  /\ next (self_symbol w (self_of th))
     = Some (frame_at (pos (symbol w)), symbol (after_frame w))
  /\ pos (symbol (after_frame w)) = S (pos (symbol w))
  /\ stdout (after_frame w) =
     {| buffer := EmptyString;
        delivered := delivered (stdout w) +:+ buffer (stdout w)
                     +:+ frame_at (pos (symbol w)) +:+ CR |}
  /\ plain (frame_at (pos (symbol w))) = true
  /\ CR <> LF
  /\ Qeq Animation.interval (Qmake 75 1000).
Proof.
  intros Hth Hpc Hs.
  split; [intros Hf; now apply (exec_turns t th)|].
  split.
  { intros Hf. split.
    - cbn [exec exec_op]. now rewrite (animate_test_true t th w Hth Hpc Hf).
    - intros m. eapply exec_ended; [apply (set_pc_lookup _ _ _ _ Hth)|reflexivity]. }
  split; [unfold self_symbol, after_frame; cbn; rewrite (next_frames _ Hs); now rewrite Hs|].
  split; [reflexivity|].
  split; [unfold after_frame; cbn [stdout set_stdout]; apply print_flushed|].
  split.
  { pose proof frames_plain as Hp. rewrite Forall_forall in Hp.
    apply Hp. right. apply frame_at_elem. }
  split; [discriminate|reflexivity].
Qed.

Lemma animate_loop_witness :
  let w := snd (exec [OpNew; OpStart 0] initial) in
  exec (turns 0 2) w =
  ([(0, Tested false); (0, Printed " ...      "); (0, Slept Animation.interval);
    (0, Tested false); (0, Printed "  ...     "); (0, Slept Animation.interval)],
   after_frames 2 w).
Proof.
  intros w.
  assert (Hth : threads w !! 0 = Some {| self_of := 0; at_pc := AtTest |})
    by reflexivity.
  destruct (animate_loop w 0 _ 2 Hth eq_refl eq_refl) as (H & _).
  exact (H eq_refl).
Defined.

(** ** The cursor of the class *)

Lemma animate_symbol (t : tid) (w : World) :
  saved (symbol w) = Animation.frames ->
  symbol (snd (exec_op (OpStep t) w)) =
  {| saved := Animation.frames;
     pos := pos (symbol w) + length (printed (fst (exec_op (OpStep t) w))) |}.
Proof.
  intros Hs.
  assert (Hsame : symbol w = {| saved := Animation.frames; pos := pos (symbol w) + 0 |}).
  { rewrite Nat.add_0_r, <- Hs. now destruct (symbol w). }
  cbn [exec_op]. unfold _animate.
  destruct (threads w !! t) as [th|]; [|exact Hsame].
  destruct (at_pc th); try exact Hsame.
  - destruct (get_finished w (self_of th)) as [[|]|]; exact Hsame.
  - unfold self_symbol. rewrite (next_frames _ Hs). cbn. f_equal. lia.
Qed.

Lemma exec_op_symbol (o : op) (w : World) :
  saved (symbol w) = Animation.frames ->
  symbol (snd (exec_op o w)) =
  {| saved := Animation.frames;
     pos := pos (symbol w) + length (printed (fst (exec_op o w))) |}.
Proof.
  intros Hs.
  assert (Hsame : symbol w = {| saved := Animation.frames; pos := pos (symbol w) + 0 |}).
  { rewrite Nat.add_0_r, <- Hs. now destruct (symbol w). }
  destruct o; try exact Hsame. now apply animate_symbol.
Qed.

(** Whatever is scheduled, the cursor has moved by the number of frames
    printed, by all threads together. *)
Lemma exec_symbol (ops : list op) (w : World) :
  saved (symbol w) = Animation.frames ->
  symbol (snd (exec ops w)) =
  {| saved := Animation.frames;
     pos := pos (symbol w) + length (printed (fst (exec ops w))) |}.
Proof.
  revert w. induction ops as [|o ops IH]; intros w Hs.
  - cbn. rewrite Nat.add_0_r, <- Hs. now destruct (symbol w).
  - cbn [exec]. pose proof (exec_op_symbol o w Hs) as H1.
    destruct (exec_op o w) as [tr1 w1]. cbn [fst snd] in H1.
    assert (Hs1 : saved (symbol w1) = Animation.frames) by now rewrite H1.
    specialize (IH w1 Hs1). destruct (exec ops w1) as [tr2 w2]. cbn [fst snd] in *.
    rewrite IH, H1. unfold printed. rewrite omap_app, length_app. cbn. f_equal. lia.
Qed.

(** C9. The cycle of frames belongs to the class: two threads, bound to
    any two instances, fetch from the same iterator, so a frame taken
    through one moves the cursor the other finds; making, starting or
    entering an instance leaves the cursor where it is; and over any
    interleaving the cursor has moved by the number of frames printed. *)
Theorem symbol_shared (w : World) (ta tb : tid) (tha thb : thread) (ops : list op) :
  threads w !! ta = Some tha ->
  threads w !! tb = Some thb ->
  ta <> tb ->
  at_pc tha = AtPrint ->
  at_pc thb = AtPrint ->
  saved (symbol w) = Animation.frames ->
  let k := pos (symbol w) in
  self_symbol w (self_of tha) = self_symbol w (self_of thb)
  /\ fst (exec [OpStep ta; OpStep tb] w)
     = [(ta, Printed (frame_at k)); (tb, Printed (frame_at (S k)))]
  /\ pos (self_symbol (snd (exec [OpStep ta] w)) (self_of thb)) = S k
  /\ symbol (snd (Animation.new w)) = symbol w
  /\ (forall self, symbol (snd (Animation.start self w)) = symbol w
                   /\ symbol (snd (Animation.__enter__ self w)) = symbol w)
  /\ symbol (snd (exec ops w)) =
     {| saved := Animation.frames;
        pos := k + length (printed (fst (exec ops w))) |}.
Proof.
  intros Ha Hb Hne Hpa Hpb Hs k. subst k.
  split; [reflexivity|].
  assert (Hb1 : threads (set_pc ta AtSleep (after_frame w)) !! tb = Some thb).
  { rewrite set_pc_lookup_ne by exact Hne. exact Hb. }
  split.
  { cbn [exec exec_op]. rewrite (animate_print ta tha w Ha Hpa Hs).
    rewrite (animate_print tb thb _ Hb1 Hpb Hs). reflexivity. }
  split.
  { cbn [exec exec_op]. rewrite (animate_print ta tha w Ha Hpa Hs). reflexivity. }
  split; [now rewrite new_spec|].
  split; [intros self; split; reflexivity|].
  now apply exec_symbol.
Qed.

Lemma symbol_shared_witness :
  let w := snd (exec [OpNew; OpNew; OpStart 0; OpStart 1; OpStep 0; OpStep 1] initial) in
  fst (exec [OpStep 0; OpStep 1] w)
  = [(0, Printed " ...      "); (1, Printed "  ...     ")].
Proof.
  intros w.
  assert (Ha : threads w !! 0 = Some {| self_of := 0; at_pc := AtPrint |})
    by reflexivity.
  assert (Hb : threads w !! 1 = Some {| self_of := 1; at_pc := AtPrint |})
    by reflexivity.
  assert (Hne : 0 <> 1) by lia.
  destruct (symbol_shared w 0 1 _ _ [] Ha Hb Hne eq_refl eq_refl eq_refl)
    as (_ & H & _).
  exact H.
Defined.

(** ** What reaches the terminal *)

Lemma chunks_app (a b : list string) : chunks (a ++ b) = chunks a +:+ chunks b.
Proof.
  induction a as [|s a IH]; [reflexivity|].
  cbn [app chunks]. now rewrite IH, !string_app_assoc.
Qed.

Lemma stream_flushed (f : stream) :
  buffer f = EmptyString ->
  f = {| buffer := EmptyString; delivered := delivered f +:+ chunks [] |}.
Proof.
  intros Hb. destruct f as [b d]. cbn in *. subst b.
  now rewrite string_app_nil_r.
Qed.

Lemma print_chunk (s : string) (f : stream) :
  buffer f = EmptyString ->
  print [s] EmptyString CR true f =
  {| buffer := EmptyString; delivered := delivered f +:+ chunks [s] |}.
Proof.
  intros Hb. rewrite print_flushed, Hb. cbn [chunks String.append].
  now rewrite string_app_nil_r.
Qed.

(** One step of an interleaving appends to the terminal what
    [output_of_op] says, and leaves nothing in the buffer. *)
Lemma exec_op_stdout (o : op) (w : World) :
  buffer (stdout w) = EmptyString ->
  stdout (snd (exec_op o w)) =
  {| buffer := EmptyString;
     delivered := delivered (stdout w)
                  +:+ chunks (output_of_op o (fst (exec_op o w))) |}.
Proof.
  intros Hb. pose proof (stream_flushed _ Hb) as Hsame.
  destruct o; cbn [exec_op fst snd output_of_op]; try exact Hsame;
    try (now apply print_chunk).
  unfold _animate.
  destruct (threads w !! t) as [th|]; [|exact Hsame].
  destruct (at_pc th); try exact Hsame.
  - destruct (get_finished w (self_of th)) as [[|]|]; exact Hsame.
  - destruct (next (self_symbol w (self_of th))) as [[f c]|]; [|exact Hsame].
    cbn. now apply print_chunk.
Qed.

Lemma exec_stdout (ops : list op) (w : World) :
  buffer (stdout w) = EmptyString ->
  stdout (snd (exec ops w)) =
  {| buffer := EmptyString;
     delivered := delivered (stdout w) +:+ chunks (outputs ops w) |}.
Proof.
  revert w. induction ops as [|o ops IH]; intros w Hb.
  - now apply stream_flushed.
  - cbn [exec outputs]. pose proof (exec_op_stdout o w Hb) as H1.
    destruct (exec_op o w) as [tr1 w1]. cbn [fst snd] in H1.
    assert (Hb1 : buffer (stdout w1) = EmptyString) by now rewrite H1.
    specialize (IH w1 Hb1). destruct (exec ops w1) as [tr2 w2]. cbn [snd] in *.
    rewrite IH, H1. cbn [delivered]. now rewrite chunks_app, string_app_assoc.
Qed.

Lemma exec_op_saved (o : op) (w : World) :
  saved (symbol w) = Animation.frames ->
  saved (symbol (snd (exec_op o w))) = Animation.frames.
Proof. intros Hs. now rewrite (exec_op_symbol o w Hs). Qed.

Lemma exec_op_outputs_known (o : op) (w : World) :
  saved (symbol w) = Animation.frames ->
  Forall (fun s => s ∈ Animation.clear :: Animation.frames)
    (output_of_op o (fst (exec_op o w))).
Proof.
  intros Hs.
  destruct o; cbn [exec_op fst output_of_op]; try (now constructor);
    try (constructor; [left|constructor]).
  unfold _animate.
  destruct (threads w !! t) as [th|]; [|now constructor].
  destruct (at_pc th); try (now constructor).
  - destruct (get_finished w (self_of th)) as [[|]|]; now constructor.
  - unfold self_symbol. rewrite (next_frames _ Hs). cbn.
    constructor; [|constructor]. right. apply frame_at_elem.
Qed.

Lemma exec_outputs_known (ops : list op) (w : World) :
  saved (symbol w) = Animation.frames ->
  Forall (fun s => s ∈ Animation.clear :: Animation.frames) (outputs ops w).
Proof.
  revert w. induction ops as [|o ops IH]; intros w Hs; [constructor|].
  cbn [outputs]. pose proof (exec_op_outputs_known o w Hs) as H1.
  pose proof (exec_op_saved o w Hs) as Hs1.
  destruct (exec_op o w) as [tr1 w1]. cbn [fst snd] in *.
  apply Forall_app. split; [exact H1 | now apply IH].
Qed.

Lemma known_width (s : string) :
  s ∈ Animation.clear :: Animation.frames ->
  String.length s = 10 /\ plain s = true.
Proof.
  intros Hin. split.
  - assert (Hall : Forall (fun f => String.length f = 10)
                     (Animation.clear :: Animation.frames)) by (repeat constructor).
    rewrite Forall_forall in Hall. now apply Hall.
  - pose proof frames_plain as Hp. rewrite Forall_forall in Hp. now apply Hp.
Qed.

Lemma string_length_app (a b : string) :
  String.length (a +:+ b) = String.length a + String.length b.
Proof. induction a as [|x a IH]; simpl; [reflexivity | now rewrite IH]. Qed.

Lemma chunks_length (items : list string) :
  Forall (fun s => s ∈ Animation.clear :: Animation.frames) items ->
  String.length (chunks items) = 11 * length items.
Proof.
  induction 1 as [|s items Hs _ IH]; [reflexivity|].
  cbn [chunks length]. rewrite !string_length_app, IH.
  destruct (known_width s Hs) as [-> _]. cbn [String.length CR]. lia.
Qed.

(** The line after a run of prints over a line of at most ten columns. *)
Lemma show_chunks (items : list string) (line : list ascii) :
  Forall (fun s => s ∈ Animation.clear :: Animation.frames) items ->
  length line <= 10 ->
  show (chunks items) 0 line =
  (0, match last items with
      | Some s => list_ascii_of_string s
      | None => line
      end).
Proof.
  intros Hall. revert line. induction Hall as [|s items Hs Hrest IH]; intros line Hlen.
  - reflexivity.
  - destruct (known_width s Hs) as [Hw Hp].
    cbn [chunks]. rewrite <- string_app_assoc, show_app.
    rewrite (show_covers s line Hp) by lia.
    rewrite IH by (rewrite length_list_ascii_of_string; lia).
    destruct items as [|s' items]; [reflexivity|].
    rewrite last_cons_cons.
    destruct (last (s' :: items)) eqn:E; [reflexivity|].
    apply last_None in E. discriminate.
Qed.

Lemma no_line_feed_app (a b : string) :
  no_line_feed (a +:+ b) = no_line_feed a && no_line_feed b.
Proof.
  induction a as [|c a IH]; [reflexivity|].
  cbn [String.append no_line_feed]. rewrite IH. now rewrite andb_assoc.
Qed.

Lemma plain_no_line_feed (s : string) : plain s = true -> no_line_feed s = true.
Proof.
  induction s as [|c s IH]; [reflexivity|]. cbn [plain no_line_feed].
  intros H. apply andb_true_iff in H as [H1 H2]. apply andb_true_iff in H1 as [_ H1].
  rewrite H1. now apply IH.
Qed.

Lemma chunks_no_line_feed (items : list string) :
  Forall (fun s => s ∈ Animation.clear :: Animation.frames) items ->
  no_line_feed (chunks items) = true.
Proof.
  induction 1 as [|s items Hs _ IH]; [reflexivity|].
  cbn [chunks]. rewrite !no_line_feed_app, IH.
  destruct (known_width s Hs) as [_ Hp]. now rewrite (plain_no_line_feed s Hp).
Qed.

(** X2. Whatever the caller and the loops do, and in whatever order,
    standard output only grows, by whole prints: the text added is a run of
    frames and clearing strings, each followed by a carriage return, so it
    is eleven characters for each print and holds no line feed; and nothing
    is ever left in the buffer. *)
Theorem output_is_whole_prints (ops : list op) (w : World) :
  buffer (stdout w) = EmptyString ->
  saved (symbol w) = Animation.frames ->
  stdout (snd (exec ops w)) =
    {| buffer := EmptyString;
       delivered := delivered (stdout w) +:+ chunks (outputs ops w) |}
  /\ Forall (fun s => s ∈ Animation.clear :: Animation.frames) (outputs ops w)
  /\ String.length (chunks (outputs ops w)) = 11 * length (outputs ops w)
  /\ no_line_feed (chunks (outputs ops w)) = true.
Proof.
  intros Hb Hs. pose proof (exec_outputs_known ops w Hs) as Hk.
  split; [now apply exec_stdout|]. split; [exact Hk|].
  split; [now apply chunks_length | now apply chunks_no_line_feed].
Qed.

Lemma output_is_whole_prints_witness :
  let w := snd (exec [OpNew; OpStart 0] initial) in
  let ops := [OpStep 0; OpStep 0; OpStop 0; OpStep 0; OpStep 0] in
  delivered (stdout (snd (exec ops w)))
  = " ...      " +:+ CR +:+ Animation.clear +:+ CR.
Proof.
  intros w ops.
  destruct (output_is_whole_prints ops w eq_refl eq_refl) as (H & _).
  rewrite H. reflexivity.
Defined.

(** X3. On a terminal whose current line is at most ten columns wide and
    whose cursor is in the first column, all that an interleaving prints
    leaves the cursor in the first column and the line showing exactly the
    last string printed, a frame or the clearing string; when nothing was
    printed the line is as it was. *)
Theorem line_shows_last_print (ops : list op) (w : World) (line : list ascii) :
  saved (symbol w) = Animation.frames ->
  length line <= 10 ->
  show (chunks (outputs ops w)) 0 line =
    (0, match last (outputs ops w) with
        | Some s => list_ascii_of_string s
        | None => line
        end)
  /\ (forall s, last (outputs ops w) = Some s ->
        s ∈ Animation.clear :: Animation.frames /\ String.length s = 10).
Proof.
  intros Hs Hlen. pose proof (exec_outputs_known ops w Hs) as Hk.
  split; [now apply show_chunks|].
  intros s Hlast. rewrite Forall_forall in Hk.
  assert (Hin : s ∈ Animation.clear :: Animation.frames).
  { apply Hk. apply last_Some in Hlast as [l' ->]. apply elem_of_app. right. left. }
  split; [exact Hin | apply (known_width s Hin)].
Qed.

Lemma line_shows_last_print_witness :
  let w := snd (exec [OpNew; OpStart 0] initial) in
  let ops := [OpStep 0; OpStep 0; OpStep 0; OpStep 0; OpStep 0] in
  show (chunks (outputs ops w)) 0 (list_ascii_of_string "$ python")
  = (0, list_ascii_of_string "  ...     ").
Proof.
  intros w ops.
  assert (Hlen : length (list_ascii_of_string "$ python") <= 10) by (cbn; lia).
  destruct (line_shows_last_print ops w _ eq_refl Hlen) as (H & _).
  exact H.
Defined.

Lemma frames_not_clear :
  Forall (fun f => f <> Animation.clear) Animation.frames.
Proof. repeat constructor; discriminate. Qed.

(** X4. [stop] does not wait for the loop.  When the loop stands between
    its test and its [print] as [stop] is called, its frame is printed
    after the clearing string: the loop then sleeps, finds the flag set and
    returns, and the line is left showing that frame, not blanks. *)
Theorem stale_frame_after_stop (w : World) (t : tid) (th : thread) (b : bool) :
  threads w !! t = Some th ->
  at_pc th = AtPrint ->
  get_finished w (self_of th) = Some b ->
  saved (symbol w) = Animation.frames ->
  buffer (stdout w) = EmptyString ->
  let frame := frame_at (pos (symbol w)) in
  let ops := [OpStop (self_of th); OpStep t; OpStep t; OpStep t] in
  fst (exec ops w) =
    [(t, Printed frame); (t, Slept Animation.interval); (t, Tested true)]
  /\ pc_of (snd (exec ops w)) t = Some Returned
  /\ delivered (stdout (snd (exec ops w))) =
     delivered (stdout w) +:+ Animation.clear +:+ CR +:+ frame +:+ CR
  /\ (forall line, length line <= 10 ->
        show (Animation.clear +:+ CR +:+ frame +:+ CR) 0 line
        = (0, list_ascii_of_string frame))
  /\ frame <> Animation.clear.
Proof.
  intros Hth Hpc Hf Hs Hb frame ops.
  pose proof (get_finished_live _ _ _ Hf) as Hlive.
  set (w1 := snd (Animation.stop (self_of th) w)).
  assert (Hth1 : threads w1 !! t = Some th) by exact Hth.
  assert (Hs1 : saved (symbol w1) = Animation.frames) by exact Hs.
  assert (Hf1 : get_finished w1 (self_of th) = Some true) by now apply stop_finished.
  assert (Hk : pos (symbol w1) = pos (symbol w)) by reflexivity.
  set (w2 := set_pc t AtSleep (after_frame w1)).
  assert (Hth2 : threads w2 !! t = Some {| self_of := self_of th; at_pc := AtSleep |}).
  { apply (set_pc_lookup t AtSleep th). exact Hth1. }
  set (w3 := set_pc t AtTest w2).
  assert (Hth3 : threads w3 !! t = Some {| self_of := self_of th; at_pc := AtTest |}).
  { apply (set_pc_lookup t AtTest _ w2 Hth2). }
  assert (Hf3 : get_finished w3 (self_of th) = Some true) by exact Hf1.
  assert (Hexec : exec ops w =
            ([(t, Printed frame); (t, Slept Animation.interval); (t, Tested true)],
             set_pc t Returned w3)).
  { subst ops. cbn [exec exec_op]. fold w1.
    rewrite (animate_print t th w1 Hth1 Hpc Hs1). fold w2.
    rewrite (animate_sleep t _ w2 Hth2 eq_refl). fold w3.
    rewrite (animate_test_true t _ w3 Hth3 eq_refl Hf3).
    rewrite Hk. reflexivity. }
  rewrite Hexec. cbn [fst snd].
  split; [reflexivity|]. split.
  { unfold pc_of. now rewrite (set_pc_lookup t Returned _ w3 Hth3). }
  assert (Hframe : frame ∈ Animation.clear :: Animation.frames)
    by (right; apply frame_at_elem).
  split.
  { change (stdout (set_pc t Returned w3))
      with (print [frame_at (pos (symbol w1))] EmptyString CR true (stdout w1)).
    rewrite Hk. fold frame.
    assert (Hout1 : stdout w1 = {| buffer := EmptyString;
              delivered := delivered (stdout w) +:+ chunks [Animation.clear] |}).
    { subst w1. rewrite stop_spec. cbn [snd stdout set_stdout]. now apply print_chunk. }
    rewrite print_chunk by now rewrite Hout1.
    rewrite Hout1. cbn [delivered chunks].
    now rewrite !string_app_assoc, !string_app_nil_r. }
  split.
  { intros line Hlen.
    pose proof (show_chunks [Animation.clear; frame] line) as Hshow.
    cbn [chunks last] in Hshow. rewrite string_app_nil_r in Hshow.
    rewrite <- Hshow; [reflexivity| |exact Hlen].
    constructor; [left|]. constructor; [exact Hframe|constructor]. }
  pose proof frames_not_clear as Hn. rewrite Forall_forall in Hn.
  apply Hn, frame_at_elem.
Qed.

Lemma stale_frame_after_stop_witness :
  let w := snd (exec [OpNew; OpStart 0; OpStep 0] initial) in
  delivered (stdout (snd (exec [OpStop 0; OpStep 0; OpStep 0; OpStep 0] w)))
  = Animation.clear +:+ CR +:+ " ...      " +:+ CR.
Proof.
  intros w.
  assert (Hth : threads w !! 0 = Some {| self_of := 0; at_pc := AtPrint |})
    by reflexivity.
  destruct (stale_frame_after_stop w 0 _ false Hth eq_refl eq_refl eq_refl eq_refl)
    as (_ & _ & H & _).
  exact H.
Defined.

(** ** When every animation is stopped *)

Lemma all_stopped_spec (w : World) :
  all_stopped w = true <->
  forall t th, threads w !! t = Some th -> get_finished w (self_of th) = Some true.
Proof.
  unfold all_stopped. rewrite forallb_forall. split.
  - intros H t th Hth.
    assert (Hin : In th (threads w)).
    { apply list_elem_of_In. eapply list_elem_of_lookup_2, Hth. }
    specialize (H th Hin).
    destruct (get_finished w (self_of th)) as [[|]|]; try discriminate; reflexivity.
  - intros H th Hin. apply list_elem_of_In, list_elem_of_lookup in Hin as [t Hth].
    now rewrite (H t th Hth).
Qed.

Lemma sum_alter (f : thread -> nat) (g : thread -> thread) (l : list thread)
    (i : nat) (x : thread) :
  l !! i = Some x ->
  sum_list (f <$> alter g i l) + f x = sum_list (f <$> l) + f (g x).
Proof.
  revert i. induction l as [|y l IH]; intros i Hi; [discriminate|].
  destruct i as [|i]; cbn in *.
  - injection Hi as ->. lia.
  - specialize (IH i Hi). lia.
Qed.

Lemma pending_set_pc (t : tid) (p : pc) (th : thread) (w : World) :
  threads w !! t = Some th ->
  pending (set_pc t p w) + prints_left (at_pc th) = pending w + prints_left p.
Proof.
  intros Hth. unfold pending, set_pc. cbn [threads set_threads].
  exact (sum_alter (fun th => prints_left (at_pc th))
           (fun th => {| self_of := self_of th; at_pc := p |}) _ _ _ Hth).
Qed.

Lemma animate_threads_length (t : tid) (w : World) :
  length (threads (snd (exec_op (OpStep t) w))) = length (threads w).
Proof.
  cbn [exec_op]. unfold _animate.
  destruct (threads w !! t) as [th|]; [|reflexivity].
  destruct (at_pc th); try reflexivity.
  - destruct (get_finished w (self_of th)) as [[|]|]; cbn; apply length_alter.
  - destruct (next (self_symbol w (self_of th))) as [[f c]|]; cbn; apply length_alter.
  - cbn. apply length_alter.
Qed.

(** A statement of a loop whose flag is set prints only by using up one of
    the loops that stood before their [print]. *)
Lemma animate_pending (t : tid) (w : World) :
  (forall th, threads w !! t = Some th -> get_finished w (self_of th) = Some true) ->
  length (printed (fst (exec_op (OpStep t) w))) + pending (snd (exec_op (OpStep t) w))
  <= pending w.
Proof.
  intros Hf. cbn [exec_op]. unfold _animate.
  destruct (threads w !! t) as [th|] eqn:Hth; [|cbn; lia].
  rewrite (Hf th eq_refl).
  destruct (at_pc th) eqn:Hpc; cbn [fst snd printed omap length]; try lia.
  - pose proof (pending_set_pc t Returned th w Hth) as H. rewrite Hpc in H. cbn -[pending] in *. lia.
  - destruct (next (self_symbol w (self_of th))) as [[f c]|];
      cbn [fst snd printed omap length].
    + set (w1 := set_stdout (print [f] EmptyString CR true (stdout w))
                   (set_symbol c w)).
      assert (H : pending (set_pc t AtSleep w1) + prints_left (at_pc th)
                  = pending w + prints_left AtSleep)
        by exact (pending_set_pc t AtSleep th w1 Hth).
      rewrite Hpc in H. cbn -[pending] in *. lia.
    + pose proof (pending_set_pc t (Crashed StopIteration) th w Hth) as H.
      rewrite Hpc in H. cbn -[pending] in *. lia.
  - pose proof (pending_set_pc t AtTest th w Hth) as H. rewrite Hpc in H. cbn -[pending] in *. lia.
  - cbn -[pending]. lia.
  - cbn -[pending]. lia.
Qed.

Lemma animate_all_stopped (t : tid) (w : World) :
  all_stopped w = true -> all_stopped (snd (exec_op (OpStep t) w)) = true.
Proof.
  rewrite !all_stopped_spec. intros H t' th' Hth'.
  assert (Hlt : t' < length (threads w)).
  { rewrite <- (animate_threads_length t w). eapply lookup_lt_Some, Hth'. }
  destruct (lookup_lt_is_Some_2 _ _ Hlt) as [th Hth].
  destruct (exec_op_stopped (OpStep t) w t' th Hth (H t' th Hth))
    as (th1 & H1 & H2 & _).
  rewrite Hth' in H1. injection H1 as <-. rewrite H2.
  apply exec_op_finished_true. now apply (H t' th).
Qed.

(** A statement that prints no frame leaves standard output and the cursor
    as they are. *)
Lemma animate_silent (t : tid) (w : World) :
  printed (fst (exec_op (OpStep t) w)) = [] ->
  stdout (snd (exec_op (OpStep t) w)) = stdout w
  /\ symbol (snd (exec_op (OpStep t) w)) = symbol w.
Proof.
  cbn [exec_op]. unfold _animate.
  destruct (threads w !! t) as [th|]; [|now split].
  destruct (at_pc th); try (now split).
  - destruct (get_finished w (self_of th)) as [[|]|]; now split.
  - destruct (next (self_symbol w (self_of th))) as [[f c]|]; [discriminate|now split].
Qed.

Lemma exec_steps_stopped (sched : list tid) (w : World) :
  all_stopped w = true ->
  length (printed (fst (exec (OpStep <$> sched) w)))
    + pending (snd (exec (OpStep <$> sched) w)) <= pending w
  /\ all_stopped (snd (exec (OpStep <$> sched) w)) = true
  /\ objs (snd (exec (OpStep <$> sched) w)) = objs w
  /\ (printed (fst (exec (OpStep <$> sched) w)) = [] ->
        stdout (snd (exec (OpStep <$> sched) w)) = stdout w
        /\ symbol (snd (exec (OpStep <$> sched) w)) = symbol w).
Proof.
  revert w. induction sched as [|t sched IH]; intros w Hall.
  - cbn. repeat split; auto.
  - cbn [fmap list_fmap exec].
    assert (Hp : length (printed (fst (exec_op (OpStep t) w)))
                 + pending (snd (exec_op (OpStep t) w)) <= pending w).
    { apply animate_pending. intros th Hth.
      apply (proj1 (all_stopped_spec w) Hall t th Hth). }
    pose proof (animate_all_stopped t w Hall) as Hall1.
    pose proof (animate_silent t w) as Hsil.
    assert (Hobjs : objs (snd (exec_op (OpStep t) w)) = objs w).
    { cbn [exec_op]. destruct (_animate t w) as [[ev w']|] eqn:E; [|reflexivity].
      apply (animate_objs _ _ _ _ E). }
    destruct (exec_op (OpStep t) w) as [tr1 w1]. cbn [fst snd] in *.
    destruct (IH w1 Hall1) as (K1 & K2 & K3 & K4).
    change (list_fmap tid op OpStep sched) with (OpStep <$> sched).
    destruct (exec (OpStep <$> sched) w1) as [tr2 w2]. cbn [fst snd] in *.
    unfold printed in *. rewrite omap_app, length_app.
    split; [lia|]. split; [exact K2|]. split; [congruence|].
    intros Hnil. apply app_eq_nil in Hnil as [Hn1 Hn2].
    destruct (Hsil Hn1) as [S1 S2]. destruct (K4 Hn2) as [S3 S4].
    split; congruence.
Qed.

Lemma pending_le_threads (w : World) : pending w <= length (threads w).
Proof.
  unfold pending. induction (threads w) as [|th l IH]; cbn; [lia|].
  destruct (at_pc th); cbn; lia.
Qed.

(** X5. Once every started loop belongs to a stopped instance and the
    caller does nothing more, the loops together print at most one frame
    for each loop that stood between its test and its [print]; when there is
    no such loop, neither standard output nor the cursor changes again;
    and every loop that gets three statements has ended. *)
Theorem all_stopped_quiesces (w : World) (sched : list tid) :
  all_stopped w = true ->
  let tr := fst (exec (OpStep <$> sched) w) in
  let w' := snd (exec (OpStep <$> sched) w) in
  length (printed tr) <= pending w
  /\ pending w <= length (threads w)
  /\ (pending w = 0 -> stdout w' = stdout w /\ symbol w' = symbol w)
  /\ all_stopped w' = true
  /\ (forall t, t < length (threads w) -> 3 <= steps_of t (OpStep <$> sched) ->
        exists p, pc_of w' t = Some p /\ ended p = true).
Proof.
  intros Hall tr w'. subst tr w'.
  destruct (exec_steps_stopped sched w Hall) as (H1 & H2 & H3 & H4).
  split; [lia|]. split; [apply pending_le_threads|]. split.
  { intros Hz. apply H4. apply length_zero_iff_nil. lia. }
  split; [exact H2|].
  intros t Hlt Hsteps. destruct (lookup_lt_is_Some_2 _ _ Hlt) as [th Hth].
  pose proof (proj1 (all_stopped_spec w) Hall t th Hth) as Hf.
  destruct (exec_stopped (OpStep <$> sched) w t th Hth Hf)
    as (th' & K1 & K2 & K3 & K4 & K5 & K6 & K7 & K8).
  exists (at_pc th'). unfold pc_of. rewrite K1. split; [reflexivity|].
  assert (steps_left (at_pc th') = 0) by (destruct (at_pc th); cbn in K6; lia).
  now destruct (at_pc th').
Qed.

Lemma all_stopped_quiesces_witness :
  let w := snd (exec [OpNew; OpStart 0; OpStart 0; OpStep 0; OpStop 0] initial) in
  length (printed (fst (exec (OpStep <$> [0; 1; 0; 1; 0; 1]) w))) <= 1.
Proof.
  intros w.
  destruct (all_stopped_quiesces w [0; 1; 0; 1; 0; 1] eq_refl) as (H & _).
  exact H.
Defined.

(** ** A loop whose flag is clear *)

(** Only [stop] on the instance itself, alone or through [__exit__], sets
    its flag. *)
Lemma exec_op_unset (o : op) (w : World) (self : ref) :
  get_finished w self = Some false ->
  sets_flag self o = false ->
  get_finished (snd (exec_op o w)) self = Some false.
Proof.
  intros Hf Hno. pose proof (get_finished_live _ _ _ Hf) as Hlive.
  assert (Hother : forall s, bool_decide (s = self) = false ->
            get_finished (setattr_finished s true w) self = Some false).
  { intros s Hs. apply bool_decide_eq_false in Hs.
    unfold get_finished, setattr_finished in *. cbn [objs set_objs].
    now rewrite list_lookup_insert_ne. }
  destruct o; cbn [exec_op snd sets_flag] in *; try exact Hf;
    try (now apply Hother).
  - rewrite new_spec. unfold get_finished in *. cbn [snd objs set_objs].
    now rewrite lookup_app_l.
  - destruct (_animate t w) as [[ev w']|] eqn:E; [|exact Hf].
    cbn [snd]. unfold get_finished in *. now rewrite (animate_objs _ _ _ _ E).
Qed.

(** What one step of an interleaving does to a running loop while nothing
    sets its flag. *)
Lemma exec_op_running (o : op) (w : World) (t : tid) (th : thread) :
  threads w !! t = Some th ->
  ended (at_pc th) = false ->
  get_finished w (self_of th) = Some false ->
  saved (symbol w) = Animation.frames ->
  exists th',
    threads (snd (exec_op o w)) !! t = Some th'
    /\ self_of th' = self_of th
    /\ ended (at_pc th') = false
    /\ (if is_step t o then 1 else 0) + since_print (at_pc th)
       = 3 * length (printed_by t (fst (exec_op o w))) + since_print (at_pc th').
Proof.
  intros Hth Hrun Hf Hs.
  assert (Hsame : forall w', threads w' !! t = Some th ->
            exists th', threads w' !! t = Some th' /\ self_of th' = self_of th
              /\ ended (at_pc th') = false
              /\ 0 + since_print (at_pc th) = 3 * 0 + since_print (at_pc th')).
  { intros w' H. exists th. repeat split; auto. }
  destruct o; cbn [exec_op fst snd is_step printed_by omap length];
    try (apply Hsame; first
           [ exact Hth
           | rewrite new_spec; exact Hth
           | cbn; now apply lookup_app_l_Some ]).
  destruct (decide (t0 = t)) as [->|Hne].
  - rewrite bool_decide_eq_true_2 by reflexivity.
    unfold _animate. rewrite Hth.
    destruct (at_pc th) eqn:Hpc; try discriminate.
    + rewrite Hf. cbn [fst snd]. eexists.
      split; [apply (set_pc_lookup _ _ _ _ Hth)|]. cbn. repeat split.
    + unfold self_symbol. rewrite (next_frames _ Hs). cbn [fst snd]. eexists.
      split; [apply (set_pc_lookup t AtSleep th); exact Hth|].
      cbn. rewrite decide_True by reflexivity. repeat split.
    + cbn [fst snd]. eexists.
      split; [apply (set_pc_lookup _ _ _ _ Hth)|]. cbn. repeat split.
  - rewrite bool_decide_eq_false_2 by exact Hne.
    destruct (_animate t0 w) as [[ev w']|] eqn:E; cbn [fst snd].
    + pose proof (animate_threads_ne t t0 w ev w' E Hne) as Hk.
      rewrite <- Hk in Hth.
      destruct (Hsame w' Hth) as (th' & H1 & H2 & H3 & H4).
      exists th'. destruct ev; cbn; try rewrite decide_False by exact Hne;
        cbn; repeat split; auto.
    + apply Hsame. exact Hth.
Qed.

Lemma exec_running (ops : list op) (w : World) (t : tid) (th : thread) :
  threads w !! t = Some th ->
  ended (at_pc th) = false ->
  get_finished w (self_of th) = Some false ->
  saved (symbol w) = Animation.frames ->
  forallb (fun o => negb (sets_flag (self_of th) o)) ops = true ->
  exists th',
    threads (snd (exec ops w)) !! t = Some th'
    /\ self_of th' = self_of th
    /\ ended (at_pc th') = false
    /\ get_finished (snd (exec ops w)) (self_of th) = Some false
    /\ steps_of t ops + since_print (at_pc th)
       = 3 * length (printed_by t (fst (exec ops w))) + since_print (at_pc th').
Proof.
  revert w th. induction ops as [|o ops IH]; intros w th Hth Hrun Hf Hs Hno.
  - exists th. cbn. repeat split; auto.
  - cbn [forallb] in Hno. apply andb_true_iff in Hno as [Hno1 Hno].
    apply negb_true_iff in Hno1.
    destruct (exec_op_running o w t th Hth Hrun Hf Hs) as (th1 & H1 & H2 & H3 & H4).
    pose proof (exec_op_unset o w _ Hf Hno1) as Hf1.
    pose proof (exec_op_saved o w Hs) as Hs1.
    rewrite steps_of_cons. cbn [exec].
    destruct (exec_op o w) as [tr1 w1]. cbn [fst snd] in *.
    rewrite <- H2 in Hf1, Hno.
    destruct (IH w1 th1 H1 H3 Hf1 Hs1 Hno) as (th2 & K1 & K2 & K3 & K4 & K5).
    destruct (exec ops w1) as [tr2 w2]. cbn [fst snd] in *.
    exists th2. unfold printed_by in *. rewrite omap_app, length_app.
    split; [exact K1|]. split; [congruence|]. split; [exact K3|].
    split; [now rewrite <- H2|]. lia.
Qed.

(** X8. A loop ends only by finding its flag set.  As long as no step calls
    [stop] (or [__exit__]) on its instance, whatever else happens, also
    [stop] on other instances, the flag stays clear, the loop has not
    ended, and it has printed one frame for every three statements it ran,
    counted from its last [print]. *)
Theorem loop_runs_until_stopped (w : World) (t : tid) (th : thread) (ops : list op) :
  threads w !! t = Some th ->
  ended (at_pc th) = false ->
  get_finished w (self_of th) = Some false ->
  saved (symbol w) = Animation.frames ->
  forallb (fun o => negb (sets_flag (self_of th) o)) ops = true ->
  get_finished (snd (exec ops w)) (self_of th) = Some false
  /\ exists p,
       pc_of (snd (exec ops w)) t = Some p
       /\ ended p = false
       /\ steps_of t ops + since_print (at_pc th)
          = 3 * length (printed_by t (fst (exec ops w))) + since_print p
       /\ since_print p <= 2.
Proof.
  intros Hth Hrun Hf Hs Hno.
  destruct (exec_running ops w t th Hth Hrun Hf Hs Hno)
    as (th' & H1 & H2 & H3 & H4 & H5).
  split; [exact H4|]. exists (at_pc th'). unfold pc_of. rewrite H1.
  repeat split; auto. destruct (at_pc th'); cbn; lia.
Qed.

Lemma loop_runs_until_stopped_witness :
  let w := snd (exec [OpNew; OpNew; OpStart 0; OpStart 1] initial) in
  let ops := [OpStep 0; OpStep 0; OpStop 1; OpStep 0; OpStep 1; OpStep 0;
              OpStep 0; OpStep 0] in
  get_finished (snd (exec ops w)) 0 = Some false
  /\ length (printed_by 0 (fst (exec ops w))) = 2.
Proof.
  intros w ops.
  assert (Hth : threads w !! 0 = Some {| self_of := 0; at_pc := AtTest |})
    by reflexivity.
  destruct (loop_runs_until_stopped w 0 _ ops Hth eq_refl eq_refl eq_refl eq_refl)
    as (H1 & _).
  split; [exact H1 | reflexivity].
Defined.

(** ** The decorator and its loop *)

(** X6. A call of the wrapped callable makes one new instance and starts
    one loop for it before [func] runs; when [func] has left that loop in
    the table and the instance in place, the call ends, by return or by
    exception alike, with the flag of the instance set, so that afterwards
    the loop prints at most one more frame and has ended once it has run
    three statements. *)
Theorem wait_for_it_stops_its_loop (func : callable) args kwargs (w : World)
    r w' (th : thread) (ops : list op) :
  let self := length (objs w) in
  let t := length (threads w) in
  let entered := snd (Animation.start self (snd (Animation.new w))) in
  func args kwargs entered = (r, w') ->
  threads w' !! t = Some th ->
  self_of th = self ->
  self < length (objs w') ->
  let final := snd (wait_for_it func args kwargs w) in
  threads entered = threads w ++ [ {| self_of := self; at_pc := AtTest |} ]
  /\ get_finished entered self = Some false
  /\ fst (wait_for_it func args kwargs w) = r
  /\ get_finished final self = Some true
  /\ length (printed_by t (fst (exec ops final))) <= 1
  /\ (3 <= steps_of t ops ->
        exists p, pc_of (snd (exec ops final)) t = Some p /\ ended p = true).
Proof.
  intros self t entered Hfunc Hth Hself Hlive final.
  assert (Hfinal : final = snd (Animation.stop self w')).
  { subst final. rewrite wait_for_it_spec. cbv zeta. fold self entered.
    now rewrite Hfunc. }
  split; [subst entered; now rewrite new_spec|].
  split; [apply new_finished|].
  split; [rewrite wait_for_it_spec; cbv zeta; fold self entered; now rewrite Hfunc|].
  assert (Hf : get_finished final self = Some true)
    by (rewrite Hfinal; now apply stop_finished).
  split; [exact Hf|].
  assert (Hth' : threads final !! t = Some th) by (rewrite Hfinal; exact Hth).
  rewrite <- Hself in Hf.
  destruct (exec_stopped ops final t th Hth' Hf)
    as (th' & K1 & K2 & K3 & K4 & K5 & K6 & K7 & K8).
  split; [destruct (at_pc th); cbn in K4; lia|].
  intros Hsteps. exists (at_pc th'). unfold pc_of. rewrite K1. split; [reflexivity|].
  assert (steps_left (at_pc th') = 0) by (destruct (at_pc th); cbn in K6; lia).
  now destruct (at_pc th').
Qed.

Lemma wait_for_it_stops_its_loop_witness :
  let func : callable :=
    fun _ _ w => (Return VNone, snd (exec [OpStep 0; OpStep 0] w)) in
  get_finished (snd (wait_for_it func [] [] initial)) 0 = Some true
  /\ length (printed_by 0
       (fst (exec [OpStep 0; OpStep 0; OpStep 0]
               (snd (wait_for_it func [] [] initial))))) <= 1.
Proof.
  intros func.
  assert (Hlive : 0 < 1) by lia.
  destruct (wait_for_it_stops_its_loop func [] [] initial (Return VNone) _
              {| self_of := 0; at_pc := AtSleep |} [OpStep 0; OpStep 0; OpStep 0]
              eq_refl eq_refl eq_refl Hlive)
    as (_ & _ & _ & H1 & H2 & _).
  split; [exact H1 | exact H2].
Defined.

(** ** The order of the frames *)

Lemma frame_at_mod (k : nat) : frame_at k = frame_at (k mod 9).
Proof.
  unfold frame_at. rewrite frames_length. now rewrite Nat.Div0.mod_mod.
Qed.

Lemma frame_at_shift (p i : nat) : frame_at (p + i) = frame_at (p mod 9 + i).
Proof.
  rewrite (frame_at_mod (p + i)), (frame_at_mod (p mod 9 + i)).
  now rewrite Nat.Div0.add_mod_idemp_l.
Qed.

Lemma nexts_frames (n : nat) (c : cycle) :
  saved c = Animation.frames ->
  nexts n c = frame_at <$> seq (pos c) n.
Proof.
  revert c. induction n as [|n IH]; intros c Hs; [reflexivity|].
  cbn [nexts seq fmap list_fmap]. rewrite (next_frames c Hs).
  f_equal. now apply (IH {| saved := Animation.frames; pos := S (pos c) |}).
Qed.

Lemma loop_trace_printed (t : tid) (k n : nat) :
  printed (loop_trace t k n) = frame_at <$> seq k n.
Proof.
  revert k. induction n as [|n IH]; intros k; [reflexivity|].
  cbn [loop_trace seq fmap list_fmap]. cbn [printed omap list_omap]. f_equal. apply IH.
Qed.

Lemma frames_NoDup : NoDup Animation.frames.
Proof.
  unfold Animation.frames.
  repeat (apply NoDup_cons_2;
          [ intros H;
            repeat (apply elem_of_cons in H as [H|H]; [discriminate|]);
            now apply elem_of_nil in H | ]).
  apply NoDup_nil_2.
Qed.

(** X7. The symbols come in the order of the list and start over after
    the ninth: [n] calls of [next] give the frames under [n] successive
    cursor positions, any nine successive calls give each of the nine
    different frames once, as the list rotated to the cursor, and [n]
    uninterrupted turns of a loop print just these. *)
Theorem symbol_cycles_in_order (c : cycle) (n : nat) (t : tid) :
  saved c = Animation.frames ->
  nexts n c = frame_at <$> seq (pos c) n
  /\ nexts 9 c = rotate (pos c) Animation.frames
  /\ nexts 9 (itertools_cycle Animation.frames) = Animation.frames
  /\ NoDup Animation.frames
  /\ (forall k, frame_at (k + 9) = frame_at k)
  /\ printed (loop_trace t (pos c) n) = nexts n c.
Proof.
  intros Hs. split; [now apply nexts_frames|]. split.
  { rewrite (nexts_frames 9 c Hs). unfold rotate. rewrite frames_length.
    replace (seq (pos c) 9) with (Nat.add (pos c) <$> seq 0 9)
      by (rewrite fmap_add_seq; f_equal; lia).
    cbn [seq fmap list_fmap]. rewrite !(frame_at_shift (pos c)).
    pose proof (Nat.mod_upper_bound (pos c) 9) as Hr.
    destruct (pos c mod 9) as [|[|[|[|[|[|[|[|[|r]]]]]]]]]; try reflexivity. lia. }
  split; [reflexivity|]. split; [apply frames_NoDup|]. split.
  { intros k. rewrite (frame_at_mod (k + 9)), (frame_at_mod k).
    f_equal. replace (k + 9) with (k + 1 * 9) by lia. apply Nat.Div0.mod_add. }
  rewrite loop_trace_printed. symmetry. now apply nexts_frames.
Qed.

Lemma symbol_cycles_in_order_witness :
  nexts 9 {| saved := Animation.frames; pos := 16 |}
  = rotate 16 Animation.frames.
Proof.
  destruct (symbol_cycles_in_order {| saved := Animation.frames; pos := 16 |} 0 0 eq_refl)
    as (_ & H & _).
  exact H.
Defined.

(** ** Starting more than once *)

Lemma exec_starts (self : ref) (k : nat) (w : World) :
  exec (repeat (OpStart self) k) w =
  ([], set_threads (threads w ++ replicate k {| self_of := self; at_pc := AtTest |}) w).
Proof.
  revert w. induction k as [|k IH]; intros w.
  - cbn. rewrite app_nil_r. now destruct w.
  - cbn [repeat exec exec_op snd]. rewrite start_spec, IH. cbn [snd app].
    f_equal. unfold set_threads. cbn [symbol objs threads stdout].
    f_equal. now rewrite <- app_assoc.
Qed.

(** X1. [start] has no guard: each call adds one more loop for the
    instance and changes nothing else, so after [k] calls the instance has
    [k] loops of its own on top of the threads there were, and while its
    flag is clear each of them, given the turn, tests, prints the next
    frame and sleeps. *)
Theorem start_unguarded (self : ref) (k : nat) (w : World) :
  let w' := snd (exec (repeat (OpStart self) k) w) in
  threads w' = threads w ++ replicate k {| self_of := self; at_pc := AtTest |}
  /\ objs w' = objs w
  /\ symbol w' = symbol w
  /\ stdout w' = stdout w
  /\ (get_finished w self = Some false ->
      saved (symbol w) = Animation.frames ->
      forall i, i < k ->
        fst (exec (turn (length (threads w) + i)) w') =
        [(length (threads w) + i, Tested false);
         (length (threads w) + i, Printed (frame_at (pos (symbol w))));
         (length (threads w) + i, Slept Animation.interval)]).
Proof.
  intros w'. subst w'. rewrite exec_starts. cbn [snd].
  repeat split.
  intros Hf Hs i Hi.
  set (w' := set_threads _ w).
  assert (Hth : threads w' !! (length (threads w) + i)
                = Some {| self_of := self; at_pc := AtTest |}).
  { subst w'. cbn [threads set_threads]. rewrite lookup_app_r by lia.
    apply lookup_replicate_2. lia. }
  now rewrite (exec_turn _ _ w' Hth eq_refl Hf Hs).
Qed.

(** ** The demonstration *)

Lemma returns_bind {A B} (m : M A) (k : A -> M B) P Q R :
  returns m P Q -> (forall v, returns (k v) (Q v) R) -> returns (bind m k) P R.
Proof.
  intros Hm Hk w HP. destruct (Hm w HP) as (v & w1 & E & HQ).
  destruct (Hk v w1 HQ) as (v' & w2 & E' & HR).
  exists v', w2. unfold bind. now rewrite E.
Qed.

Lemma returns_ret {A} (v : A) (P : World -> Prop) :
  returns (ret v) P (fun v' w => v' = v /\ P w).
Proof. intros w HP. now exists v, w. Qed.

Lemma returns_post {A} (m : M A) P (Q Q' : A -> World -> Prop) :
  returns m P Q -> (forall v w, Q v w -> Q' v w) -> returns m P Q'.
Proof.
  intros Hm Himp w HP. destruct (Hm w HP) as (v & w' & E & HQ).
  exists v, w'. auto.
Qed.

Lemma fmap_self_alter (t : tid) (p : pc) (l : list thread) :
  self_of <$> alter (fun th => {| self_of := self_of th; at_pc := p |}) t l
  = self_of <$> l.
Proof.
  apply list_eq. intros i. rewrite !list_lookup_fmap.
  destruct (decide (t = i)) as [->|Hne].
  - rewrite list_lookup_alter_eq. now destruct (l !! i).
  - now rewrite list_lookup_alter_ne.
Qed.

(** The loops change neither the instances nor which instance a loop
    belongs to. *)
Lemma animate_shape (t : tid) (w : World) o ss :
  shape o ss w -> shape o ss (snd (exec_op (OpStep t) w)).
Proof.
  intros [Ho Hs]. subst o ss. unfold shape. cbn [exec_op]. unfold _animate.
  destruct (threads w !! t) as [th|]; [|now split].
  destruct (at_pc th); try (now split).
  - destruct (get_finished w (self_of th)) as [[|]|]; cbn;
      (split; [reflexivity | apply fmap_self_alter]).
  - destruct (next (self_symbol w (self_of th))) as [[f c]|]; cbn;
      (split; [reflexivity | apply fmap_self_alter]).
  - cbn. split; [reflexivity | apply fmap_self_alter].
Qed.

Lemma exec_steps_shape (sched : list tid) (w : World) o ss :
  shape o ss w -> shape o ss (snd (exec (OpStep <$> sched) w)).
Proof.
  revert w. induction sched as [|t sched IH]; intros w Hw; [exact Hw|].
  cbn [fmap list_fmap exec]. pose proof (animate_shape t w o ss Hw) as H1.
  destruct (exec_op (OpStep t) w) as [tr1 w1]. cbn [snd] in H1.
  specialize (IH w1 H1). change (list_fmap tid op OpStep sched) with (OpStep <$> sched).
  now destruct (exec (OpStep <$> sched) w1).
Qed.

Lemma background_shape (sched : list tid) o ss :
  returns (background sched) (shape o ss) (fun _ => shape o ss).
Proof.
  intros w Hw. eexists tt, _. split; [reflexivity|]. now apply exec_steps_shape.
Qed.

Lemma time_sleep_shape (seconds : Q) (sched : list tid) o ss :
  returns (time_sleep seconds sched) (shape o ss) (fun _ => shape o ss).
Proof.
  intros w Hw. eexists VNone, _. split; [reflexivity|]. now apply exec_steps_shape.
Qed.

Lemma print_line_shape (s : string) o ss :
  returns (print_line s) (shape o ss) (fun _ => shape o ss).
Proof. intros w Hw. eexists VNone, _. split; [reflexivity | exact Hw]. Qed.

Lemma stop_shape (self : ref) o ss :
  returns (Animation.stop self) (shape o ss)
    (fun _ => shape (<[self := {| finished := Some true |}]> o) ss).
Proof.
  intros w [Ho Hs]. eexists VNone, _. split; [apply stop_spec|].
  subst o ss. now split.
Qed.

(** The [with] statement over a new instance, for a block that returns. *)
Lemma with_new_shape (body : value -> M completion) o ss o' ss' :
  returns (body (VRef (length o)))
    (shape (o ++ [ {| finished := Some false |} ]) (ss ++ [length o]))
    (fun _ => shape o' ss') ->
  returns (with_stmt Animation.new Animation.__enter__ Animation.__exit__ body)
    (shape o ss)
    (fun _ => shape (<[length o := {| finished := Some true |}]> o') ss').
Proof.
  intros Hbody w [Ho Hs]. subst o ss.
  pose proof (new_spec w) as Hnew.
  set (w0 := set_objs (objs w ++ [ {| finished := Some false |} ]) w) in Hnew.
  set (w1 := snd (Animation.start (length (objs w)) w0)).
  assert (H1 : shape (objs w ++ [ {| finished := Some false |} ])
                 ((self_of <$> threads w) ++ [length (objs w)]) w1).
  { split; [reflexivity|]. subst w1 w0. cbn. now rewrite fmap_app. }
  destruct (Hbody w1 H1) as (c & w2 & E & [Ho2 Hs2]).
  exists c, (snd (Animation.stop (length (objs w)) w2)). split.
  - unfold with_stmt, bind. rewrite Hnew, enter_spec. fold w1.
    rewrite E, exit_spec. reflexivity.
  - subst o' ss'. now split.
Qed.

Lemma all_stopped_shape (w : World) o ss :
  shape o ss w ->
  all_stopped w =
  forallb (fun s => match o !! s ≫= finished with
                    | Some true => true
                    | _ => false
                    end) ss.
Proof.
  intros [Ho Hs]. subst o ss. unfold all_stopped, get_finished.
  induction (threads w) as [|th l IH]; [reflexivity|].
  cbn [forallb fmap list_fmap]. now rewrite IH.
Qed.

Lemma call_shape (block : M completion) P (Q : World -> Prop) :
  returns block P (fun _ => Q) -> returns (call block) P (fun _ => Q).
Proof.
  intros Hb w HP. destruct (Hb w HP) as (c & w' & E & HQ).
  unfold call, bind. rewrite E. destruct c; eexists _, w'; split; eauto.
Qed.

(** A call of a decorated function that itself leaves the instances and
    the loops alone: one more instance, stopped, and one more loop. *)
Lemma wait_for_it_shape (func : callable) args kwargs o ss :
  (forall o1 ss1, returns (func args kwargs) (shape o1 ss1) (fun _ => shape o1 ss1)) ->
  returns (wait_for_it func args kwargs) (shape o ss)
    (fun _ => shape (<[length o := {| finished := Some true |}]>
                       (o ++ [ {| finished := Some false |} ]))
                (ss ++ [length o])).
Proof.
  intros Hfunc. unfold wait_for_it. apply call_shape, with_new_shape.
  intros w Hw. destruct (Hfunc _ _ w Hw) as (v & w' & E & HQ).
  exists (Returning v), w'. unfold bind. rewrite E. now split.
Qed.

Lemma long_running_function_shape (sched : list tid) o ss :
  returns (long_running_function sched [] []) (shape o ss) (fun _ => shape o ss).
Proof.
  intros w Hw. eexists VNone, _. split; [reflexivity|]. now apply exec_steps_shape.
Qed.

Lemma returns_seq {A B} (m : M A) (k : M B) (P Q : World -> Prop) R :
  returns m P (fun _ => Q) -> returns k Q R -> returns (bind m (fun _ => k)) P R.
Proof. intros Hm Hk. eapply returns_bind; [exact Hm|]. intros v. exact Hk. Qed.

(** X9. The demonstration under [__main__] never raises, whatever the
    loops get to run at each point: it ends with two instances, both
    stopped, and one loop for each, and from then on the loops print at
    most two more frames between them. *)
Theorem demonstration_ends_stopped (sch : nat -> list tid) (later : list tid) :
  let w' := snd (main sch initial) in
  fst (main sch initial) = Return VNone
  /\ objs w' = [ {| finished := Some true |}; {| finished := Some true |} ]
  /\ self_of <$> threads w' = [0; 1]
  /\ all_stopped w' = true
  /\ length (printed (fst (exec (OpStep <$> later) w'))) <= 2.
Proof.
  assert (Hmain : returns (main sch) (shape [] [])
            (fun v w => v = VNone
               /\ shape [ {| finished := Some true |}; {| finished := Some true |} ]
                    [0; 1] w)).
  { unfold main.
    eapply returns_seq; [apply background_shape|].
    eapply returns_seq; [apply print_line_shape|].
    eapply returns_seq; [apply background_shape|].
    eapply returns_seq;
      [apply wait_for_it_shape; intros; apply long_running_function_shape|].
    cbn [insert list_insert length app].
    eapply returns_seq; [apply background_shape|].
    eapply returns_seq; [apply print_line_shape|].
    eapply returns_seq; [apply background_shape|].
    eapply returns_seq.
    { apply call_shape.
      apply (with_new_shape _ [ {| finished := Some true |} ] [0]
               [ {| finished := Some true |}; {| finished := Some true |} ] [0; 1]).
      eapply returns_seq; [apply time_sleep_shape|].
      eapply returns_seq; [apply stop_shape|].
      eapply returns_seq; [apply background_shape|].
      eapply returns_seq; [apply print_line_shape|].
      eapply returns_seq; [apply time_sleep_shape|].
      eapply returns_post; [apply returns_ret|]. intros c w [_ Hw]. exact Hw. }
    cbn [insert list_insert length app].
    eapply returns_seq; [apply background_shape|].
    apply returns_ret. }
  destruct (Hmain initial) as (v & w1 & E & -> & Hshape); [now split|].
  intros w'. subst w'. rewrite E. cbn [fst snd].
  pose proof (all_stopped_shape w1 _ _ Hshape) as Hall. cbn in Hall.
  destruct Hshape as [Ho Hs].
  split; [reflexivity|]. split; [exact Ho|]. split; [exact Hs|]. split; [exact Hall|].
  destruct (exec_steps_stopped later w1 Hall) as (H1 & _).
  pose proof (pending_le_threads w1) as H2.
  assert (H3 : length (threads w1) = 2).
  { rewrite <- (length_fmap self_of), Hs. reflexivity. }
  lia.
Qed.
